(** * ubigen: adding UBI headers to a binary image

    A shallow embedding of [ubi-utils/sort-me-out/ubigen.c] (the command-line
    front end: [args], [parse_opt], [main]) and of the image-construction
    engine it drives.  The engine (libubigen: [ubigen_create],
    [ubigen_write_complete]) and the on-flash header declarations
    ([mtd/ubi-header.h]) are not part of the sources at hand; their model
    below follows the written specification and is marked as such. *)

From Stdlib Require Import String Ascii ZArith Bool Lia List.
From Stdlib Require Import Strings.Byte.
Import ListNotations.

Local Open Scope Z_scope.

(* ================================================================= *)
(** ** C integers *)

(** Conversion of an integer value to a 32-bit [int]: the value is reduced
    modulo 2^32 into the signed range (what gcc and clang do for
    out-of-range conversions, and for overflowing [int] arithmetic on
    two's-complement hardware). *)
Definition to_int (z : Z) : Z := (z + 2 ^ 31) mod 2 ^ 32 - 2 ^ 31.

(** The explicit cast [(uint32_t)x]. *)
Definition to_uint32 (z : Z) : Z := z mod 2 ^ 32.

Definition ULLONG_MAX : Z := 2 ^ 64 - 1.

(* ================================================================= *)
(** ** libc: [strtoull] with base 0 *)

Definition isspace (c : ascii) : bool :=
  let n := nat_of_ascii c in
  (Nat.eqb n 32 || (Nat.leb 9 n && Nat.leb n 13))%bool.

Fixpoint skip_space (s : string) : string :=
  match s with
  | String c s' => if isspace c then skip_space s' else s
  | EmptyString => s
  end.

(** Value of a character as a digit: '0'..'9', then letters of either case
    from 10 on. *)
Definition digit_val (c : ascii) : option Z :=
  let n := nat_of_ascii c in
  if (Nat.leb 48 n && Nat.leb n 57)%bool then Some (Z.of_nat (n - 48))
  else if (Nat.leb 97 n && Nat.leb n 122)%bool then Some (Z.of_nat (n - 87))
  else if (Nat.leb 65 n && Nat.leb n 90)%bool then Some (Z.of_nat (n - 55))
  else None.

Definition is_digit_in (base : Z) (c : ascii) : bool :=
  match digit_val c with
  | Some d => d <? base
  | None => false
  end.

(** The longest run of digits of [base]: accumulated value, whether any
    digit was read, and the first character not converted. *)
Fixpoint digits (base acc : Z) (any : bool) (s : string) : Z * bool * string :=
  match s with
  | String c s' =>
      match digit_val c with
      | Some d =>
          if d <? base then digits base (acc * base + d) true s'
          else (acc, any, s)
      | None => (acc, any, s)
      end
  | EmptyString => (acc, any, s)
  end.

(** [strtoull(nptr, &endp, 0)]: the converted value and [endp], given as
    the suffix of [nptr] it points to.  No conversion leaves [endp = nptr]
    and yields 0; an out-of-range value saturates to [ULLONG_MAX]; a
    leading minus sign negates in the unsigned type. *)
Definition strtoull (nptr : string) : Z * string :=
  let s1 := skip_space nptr in
  let '(neg, s2) :=
    match s1 with
    | String "-"%char t => (true, t)
    | String "+"%char t => (false, t)
    | _ => (false, s1)
    end in
  let finish (v : Z) (rest : string) : Z * string :=
    if ULLONG_MAX <? v then (ULLONG_MAX, rest)
    else ((if neg then (2 ^ 64 - v) mod 2 ^ 64 else v), rest) in
  let generic (base : Z) (s : string) : Z * string :=
    let '(v, any, rest) := digits base 0 false s in
    if any then finish v rest else (0, nptr) in
  match s2 with
  | String "0"%char (String x t) =>
      if (Ascii.eqb x "x" || Ascii.eqb x "X")%bool then
        match t with
        | String h _ =>
            if is_digit_in 16 h then generic 16 t
            else (0, String x t)
        | EmptyString => (0, String x t)
        end
      else generic 8 s2
  | String "0"%char EmptyString => generic 8 s2
  | _ => generic 10 s2
  end.

(** [strtoul]: [unsigned long] has the width of [unsigned long long] on the
    LP64 targets the tool is built for. *)
Definition strtoul (nptr : string) : Z * string := strtoull nptr.

(* ================================================================= *)
(** ** ubigen.c: the command-line front end *)

Module Ubigen.

(** [UBI_VID_DYNAMIC] and [UBI_VID_STATIC] of [mtd/ubi-header.h]. *)
Inductive vol_type_t := UBI_VID_DYNAMIC | UBI_VID_STATIC.

(** An open stream: [stdout] or the result of a successful [fopen]. *)
Inductive FILE :=
| stdout
| opened (path mode : string).

(** [struct args]; a [NULL] stream is [None]. *)
Record args_t := mk_args {
  fp_in : option FILE;
  fp_out : option FILE;
  peb_size : Z;
  id : Z;
  min_io_size : Z;
  type : vol_type_t;
  sub_page_size : Z;
  alignment : Z;
  vid_hdr_offs : Z;
  ec : Z;
  ubi_ver : Z
}.

(** The initial value of the global [args]. *)
Definition args : args_t := {|
  fp_in := None;
  fp_out := None;
  peb_size := -1;
  id := -1;
  min_io_size := -1;
  type := UBI_VID_DYNAMIC;
  sub_page_size := -1;
  alignment := 1;
  vid_hdr_offs := 0;
  ec := 0;
  ubi_ver := 0
|}.

Definition set_fp_in (a : args_t) (f : option FILE) : args_t :=
  mk_args f (fp_out a) (peb_size a) (id a) (min_io_size a) (type a)
          (sub_page_size a) (alignment a) (vid_hdr_offs a) (ec a) (ubi_ver a).
Definition set_fp_out (a : args_t) (f : option FILE) : args_t :=
  mk_args (fp_in a) f (peb_size a) (id a) (min_io_size a) (type a)
          (sub_page_size a) (alignment a) (vid_hdr_offs a) (ec a) (ubi_ver a).
Definition set_peb_size (a : args_t) (v : Z) : args_t :=
  mk_args (fp_in a) (fp_out a) v (id a) (min_io_size a) (type a)
          (sub_page_size a) (alignment a) (vid_hdr_offs a) (ec a) (ubi_ver a).
Definition set_id (a : args_t) (v : Z) : args_t :=
  mk_args (fp_in a) (fp_out a) (peb_size a) v (min_io_size a) (type a)
          (sub_page_size a) (alignment a) (vid_hdr_offs a) (ec a) (ubi_ver a).
Definition set_min_io_size (a : args_t) (v : Z) : args_t :=
  mk_args (fp_in a) (fp_out a) (peb_size a) (id a) v (type a)
          (sub_page_size a) (alignment a) (vid_hdr_offs a) (ec a) (ubi_ver a).
Definition set_type (a : args_t) (v : vol_type_t) : args_t :=
  mk_args (fp_in a) (fp_out a) (peb_size a) (id a) (min_io_size a) v
          (sub_page_size a) (alignment a) (vid_hdr_offs a) (ec a) (ubi_ver a).
Definition set_sub_page_size (a : args_t) (v : Z) : args_t :=
  mk_args (fp_in a) (fp_out a) (peb_size a) (id a) (min_io_size a) (type a)
          v (alignment a) (vid_hdr_offs a) (ec a) (ubi_ver a).
Definition set_vid_hdr_offs (a : args_t) (v : Z) : args_t :=
  mk_args (fp_in a) (fp_out a) (peb_size a) (id a) (min_io_size a) (type a)
          (sub_page_size a) (alignment a) v (ec a) (ubi_ver a).
Definition set_ec (a : args_t) (v : Z) : args_t :=
  mk_args (fp_in a) (fp_out a) (peb_size a) (id a) (min_io_size a) (type a)
          (sub_page_size a) (alignment a) (vid_hdr_offs a) v (ubi_ver a).
Definition set_ubi_ver (a : args_t) (v : Z) : args_t :=
  mk_args (fp_in a) (fp_out a) (peb_size a) (id a) (min_io_size a) (type a)
          (sub_page_size a) (alignment a) (vid_hdr_offs a) (ec a) v.

(** The lines of [optionsstr]; the C literal joins them with newlines. *)
Definition optionsstr : list string := [
  "-i, --infile=<filename>       the input file";
  "-o, --outfile=<filename>      the output file (default is stdout)";
  "-b, --peb-size=<bytes>        size of the physical eraseblock of the flash this";
  "                              UBI image is created for in bytes, kilobytes (KiB),";
  "                              or megabytes (MiB) (mandatory parameter)";
  "-I, --vol-id=<num>            volume ID (mandatory parameter)";
  "-m, --min-io-size=<bytes>     minimum input/output unit size of the flash in bytes";
  "                              kilobytes (KiB), or megabytes (MiB) (mandatory";
  "                              parameter); e.g. this is NAND page size in case of";
  "                              NAND flash";
  "-t, --type=<static|dynamic>   volume type: dynamic or static (default is dynamic)";
  "-s, --sub-page-size=<bytes>   minimum input/output unit used for UBI headers, e.g.";
  "                              sub-page size in case of NAND flash (equivalent to";
  "                              the minimum input/output unit size by default)";
  "-a, --alignment=<bytes>       volume alignment in bytes, kilobytes (KiB), or";
  "                              megabytes (MiB) (default is 1)";
  "-O, --vid-hdr-offset=<num>    offset if the VID header from start of the physical";
  "                              eraseblock (default is the second minimum I/O unit";
  "                              or sub-page, if it was specified)";
  "-e, --erase-counter=<num>     the erase counter value to put to EC headers";
  "                              (default is 0)";
  "-x, --ubi-ver=<num>            UBI version number to put to EC headers";
  "                              (default is 1)";
  "-h, --help                    print help message";
  "-V, --version                 print program version"
]%string.

(** [long_options]: name, [has_arg] and [val] of each entry. *)
Definition long_options : list (string * bool * ascii) := [
  ("infile", true, "i"%char);
  ("outfile", true, "o"%char);
  ("peb-size", true, "b"%char);
  ("vol-id", true, "I"%char);
  ("min-io-size", true, "m"%char);
  ("type", true, "t"%char);
  ("sub-page-size", true, "s"%char);
  ("alignment", true, "a"%char);
  ("vid-hdr-offset", true, "O"%char);
  ("erase-counter", true, "e"%char);
  ("ubi-ver", true, "x"%char);
  ("help", false, "h"%char);
  ("version", false, "V"%char)
]%string.

(** The short-option string handed to [getopt_long]. *)
Definition optstring : string := "i:o:b:I:m:t:s:a:O:e:x:hV".

(** What is printed: the messages of [errmsg] and [fprintf(stderr, ...)],
    with their arguments. *)
Inductive message :=
| cannot_open_file (optarg : string)
| bad_physical_eraseblock_size (optarg : string)
| bad_size_specifier (endp : string)
| bad_min_io_unit_size (optarg : string)
| bad_erase_counter_value (optarg : string)
| bad_volume_ID (optarg : string)
| bad_volume_type (optarg : string)
| bad_UBI_version (optarg : string)
| bad_VID_header_offset (optarg : string)
| help_text
| program_version
| parameter_is_missing
| use_h_for_help
| input_file_not_specified
| volume_ID_not_specified
| peb_size_not_specified
| min_io_size_not_specified
| cannot_fetch_file_size
| cannot_create_handler (err : Z)
| error_converting_input.

(** The arguments of the call of [ubigen_create] in [main], in order
    (the handle [&u] left out); [vol_id] is the value after the cast to
    [uint32_t], the others are the argument expressions' values. *)
Record create_args := mk_create {
  c_vol_id : Z;
  c_vol_type : vol_type_t;
  c_eb_size : Z;
  c_ec : Z;
  c_alignment : Z;
  c_version : Z;
  c_vid_hdr_offset : Z;
  c_compat_flag : Z;
  c_data_size : Z;
  c_fp_in : option FILE;
  c_fp_out : option FILE
}.

(** What the program does to the outside, in order. *)
Inductive event :=
| ev_ubigen_init
| ev_fopen (path mode : string) (ok : bool)
| ev_stderr (m : message)
| ev_fstat (ok : bool)
| ev_ubigen_create (c : create_args) (err : Z)
| ev_ubigen_write_complete (err : Z)
| ev_ubigen_destroy (err : Z).

(** The surroundings of one run: the file system as [fopen] and [fstat]
    see it, the helper [ubiutils_get_multiplier] of common.c, the bytes
    the automatic variable [file_info] happens to hold before [fstat]
    fills it, and the return values of the libubigen calls. *)
Record env := mk_env {
  fopen_ok : string -> string -> bool;
  ubiutils_get_multiplier : string -> Z;
  fstat_st_size : option Z;
  file_info_initial_st_size : Z;
  ubigen_create_err : create_args -> Z;
  ubigen_write_complete_err : Z;
  ubigen_destroy_err : Z
}.

(** How a function ends: it returns a value, or the process [exit]s. *)
Inductive ending (A : Type) :=
| returns (a : A)
| exits (status : Z).
Arguments returns {A} a.
Arguments exits {A} status.

Definition EXIT_SUCCESS : Z := 0.

(** The result of one pass through the [switch]: go on with the loop, or
    leave [parse_opt]. *)
Inductive switch_result :=
| sw_break (a : args_t)
| sw_return (rc : Z) (a : args_t)
| sw_exit (status : Z).

Definition is_key (key : ascii) (c : ascii) : bool := Ascii.eqb key c.

(** The [-b] and [-m] cases: a size with an optional unit suffix.  The
    field is assigned first and checked afterwards; [endp == optarg]
    compares two pointers into the same string, which are equal exactly
    when the suffixes they point to are. *)
Definition parse_size (E : env) (optarg : string)
           (bad : string -> message) (set : Z -> args_t)
  : list event * switch_result :=
  let '(v, endp) := strtoull optarg in
  let size := to_int v in
  if (String.eqb endp optarg || (size <=? 0))%bool then
    ([ev_stderr (bad optarg)], sw_return (-1) (set size))
  else
    match endp with
    | EmptyString => ([], sw_break (set size))
    | _ =>
        let mult := ubiutils_get_multiplier E endp in
        if mult =? -1 then
          ([ev_stderr (bad_size_specifier endp)], sw_return (-1) (set size))
        else ([], sw_break (set (to_int (size * mult))))
    end.

(** The [-e], [-I], [-x] and [-O] cases: a non-negative number. *)
Definition parse_num (optarg : string)
           (bad : string -> message) (set : Z -> args_t)
  : list event * switch_result :=
  let '(v, endp) := strtoul optarg in
  let n := to_int v in
  if (String.eqb endp optarg || (n <? 0))%bool then
    ([ev_stderr (bad optarg)], sw_return (-1) (set n))
  else ([], sw_break (set n)).

(** The body of the [switch (key)] statement. *)
Definition switch_key (E : env) (a : args_t) (key : ascii) (optarg : string)
  : list event * switch_result :=
  if is_key key "o" then
    if fopen_ok E optarg "wb" then
      ([ev_fopen optarg "wb" true],
       sw_break (set_fp_out a (Some (opened optarg "wb"))))
    else
      ([ev_fopen optarg "wb" false; ev_stderr (cannot_open_file optarg)],
       sw_return (-1) (set_fp_out a None))
  else if is_key key "i" then
    if fopen_ok E optarg "rb" then
      ([ev_fopen optarg "rb" true],
       sw_break (set_fp_in a (Some (opened optarg "rb"))))
    else
      ([ev_fopen optarg "rb" false; ev_stderr (cannot_open_file optarg)],
       sw_return (-1) (set_fp_in a None))
  else if is_key key "b" then
    parse_size E optarg bad_physical_eraseblock_size (set_peb_size a)
  else if is_key key "m" then
    parse_size E optarg bad_min_io_unit_size (set_min_io_size a)
  else if is_key key "e" then
    parse_num optarg bad_erase_counter_value (set_ec a)
  else if is_key key "I" then
    parse_num optarg bad_volume_ID (set_id a)
  else if is_key key "t" then
    if String.eqb optarg "dynamic" then ([], sw_break (set_type a UBI_VID_DYNAMIC))
    else if String.eqb optarg "static" then ([], sw_break (set_type a UBI_VID_STATIC))
    else ([ev_stderr (bad_volume_type optarg)], sw_return (-1) a)
  else if is_key key "x" then
    parse_num optarg bad_UBI_version (set_ubi_ver a)
  else if is_key key "O" then
    parse_num optarg bad_VID_header_offset (set_vid_hdr_offs a)
  else if is_key key "h" then
    ([ev_stderr help_text], sw_exit EXIT_SUCCESS)
  else if is_key key "V" then
    ([ev_stderr program_version], sw_exit EXIT_SUCCESS)
  else if is_key key ":" then
    ([ev_stderr parameter_is_missing], sw_return (-1) a)
  else
    ([ev_stderr use_h_for_help], sw_return (-1) a).

(** The checks of [parse_opt] after the option loop. *)
Definition after_loop (a : args_t) : list event * ending (Z * args_t) :=
  match fp_in a with
  | None => ([ev_stderr input_file_not_specified], returns (-1, a))
  | Some _ =>
      let a1 := match fp_out a with
                | None => set_fp_out a (Some stdout)
                | Some _ => a
                end in
      if id a1 <? 0 then
        ([ev_stderr volume_ID_not_specified], returns (-1, a1))
      else if peb_size a1 <? 0 then
        ([ev_stderr peb_size_not_specified], returns (-1, a1))
      else if min_io_size a1 <? 0 then
        ([ev_stderr min_io_size_not_specified], returns (-1, a1))
      else
        let a2 := if sub_page_size a1 <? 0
                  then set_sub_page_size a1 (min_io_size a1)
                  else a1 in
        ([], returns (0, a2))
  end.

(** [parse_opt], started with the global [args] holding [a].  The
    command line is given as [getopt_long] reports it: the keys it
    returns, each with the [optarg] it sets, until it returns -1.  The
    result is the return value together with [args] as left behind. *)
Fixpoint parse_opt (E : env) (a : args_t) (opts : list (ascii * string))
  : list event * ending (Z * args_t) :=
  match opts with
  | [] => after_loop a
  | (key, optarg) :: rest =>
      match switch_key E a key optarg with
      | (evs, sw_break a') =>
          let '(evs', r) := parse_opt E a' rest in (evs ++ evs', r)
      | (evs, sw_return rc a') => (evs, returns (rc, a'))
      | (evs, sw_exit status) => (evs, exits status)
      end
  end.

(** [fstat(fileno(args.fp_in), &file_info)] followed by the read of
    [file_info.st_size]: a failure is reported on [stderr] and the field
    is read all the same, with whatever [file_info] held. *)
Definition fstat_input_len (E : env) : list event * Z :=
  match fstat_st_size E with
  | Some sz => ([ev_fstat true], sz)
  | None =>
      ([ev_fstat false; ev_stderr cannot_fetch_file_size],
       file_info_initial_st_size E)
  end.

(** The argument list of the call of [ubigen_create]. *)
Definition create_call (a : args_t) (input_len : Z) : create_args := {|
  c_vol_id := to_uint32 (id a);
  c_vol_type := type a;
  c_eb_size := peb_size a;
  c_ec := ec a;
  c_alignment := alignment a;
  c_version := ubi_ver a;
  c_vid_hdr_offset := vid_hdr_offs a;
  c_compat_flag := 0;
  c_data_size := input_len;
  c_fp_in := fp_in a;
  c_fp_out := fp_out a
|}.

(** The part of [main] after a successful [parse_opt]. *)
Definition run_session (E : env) (a : args_t) : list event * ending Z :=
  let '(stat_evs, input_len) := fstat_input_len E in
  let c := create_call a input_len in
  let err1 := ubigen_create_err E c in
  let pre := stat_evs ++ [ev_ubigen_create c err1] in
  if negb (err1 =? 0) then
    (pre ++ [ev_stderr (cannot_create_handler err1)], returns (-1))
  else
    let err2 := ubigen_write_complete_err E in
    if negb (err2 =? 0) then
      (pre ++ [ev_ubigen_write_complete err2;
               ev_stderr error_converting_input], returns (-1))
    else
      let err3 := ubigen_destroy_err E in
      (pre ++ [ev_ubigen_write_complete err2; ev_ubigen_destroy err3],
       returns err3).

(** [main]: the events of the run and how the process ends. *)
Definition main (E : env) (opts : list (ascii * string))
  : list event * ending Z :=
  match parse_opt E args opts with
  | (evs, exits status) => (ev_ubigen_init :: evs, exits status)
  | (evs, returns (err, a)) =>
      if negb (err =? 0) then (ev_ubigen_init :: evs, returns (-1))
      else
        let '(evs', r) := run_session E a in
        (ev_ubigen_init :: evs ++ evs', r)
  end.

End Ubigen.

(* ================================================================= *)
(** ** Bytes, big-endian fields and CRC-32 *)

Definition byte_of_Z (z : Z) : byte :=
  match Byte.of_N (Z.to_N (z mod 256)) with
  | Some b => b
  | None => x00
  end.

Definition Z_of_byte (b : byte) : Z := Z.of_N (Byte.to_N b).

(** A field of [w] bytes, most significant byte first; a value that does
    not fit is cut to its low [w] bytes. *)
Fixpoint be_encode (w : nat) (z : Z) : list byte :=
  match w with
  | O => []
  | S w' => byte_of_Z (z / 2 ^ (8 * Z.of_nat w')) :: be_encode w' z
  end.

Definition be_decode (bs : list byte) : Z :=
  fold_left (fun acc b => acc * 256 + Z_of_byte b) bs 0.

Definition zeros (n : nat) : list byte := repeat x00 n.

(** The standard CRC-32 (reflected polynomial 0xEDB88320, initial value
    and final xor 0xFFFFFFFF), one bit at a time. *)
Definition crc32_poly : Z := 0xEDB88320.

Definition crc32_bit (c : Z) : Z :=
  if Z.testbit c 0 then Z.lxor (Z.shiftr c 1) crc32_poly else Z.shiftr c 1.

Definition crc32_byte (c : Z) (b : byte) : Z :=
  Nat.iter 8 crc32_bit (Z.lxor c (Z_of_byte b)).

Definition crc32 (data : list byte) : Z :=
  Z.lxor (fold_left crc32_byte data 0xFFFFFFFF) 0xFFFFFFFF.

(* ================================================================= *)
(** ** The image-construction engine *)

Module Engine.

(** Modelled from the spec: the sizes of the two headers and of their
    fields.  [mtd/ubi-header.h] is missing and the specification names
    [EC_HDR_SIZE] and [VID_HDR_SIZE] without giving them; the values are
    those of the UBI on-flash format, 64 bytes each with a 4-byte
    checksum as the trailing field. *)
Definition EC_HDR_SIZE : nat := 64.
Definition VID_HDR_SIZE : nat := 64.
Definition CRC_SIZE : nat := 4.
Definition EC_HDR_MAGIC : Z := 0x55424923.
Definition VID_HDR_MAGIC : Z := 0x55424921.

(** *** Data model *)

Inductive VolType := Dynamic | Static.

(** Modelled from the spec: VolumeGeometry, as supplied at construction
    ([sub_page_size] may be left unspecified, [vid_hdr_offset] zero asks
    for the default). *)
Record VolumeGeometry := mk_geometry {
  peb_size : nat;
  min_io_size : nat;
  sub_page_size : option nat;
  vid_hdr_offset : nat;
  alignment : nat
}.

(** Modelled from the spec: VolumeParams. *)
Record VolumeParams := mk_params {
  vol_id : nat;
  vol_type : VolType;
  erase_counter : nat;
  ubi_format_version : nat;
  declared_data_length : nat
}.

(** Modelled from the spec: the fields of the EC header, in the order
    the specification lists them; the header checksum is computed by
    the encoder. *)
Record ECHeader := mk_ec {
  ec_magic : Z;
  ec_version : Z;
  ec_erase_counter : Z;
  ec_vid_hdr_offset : Z;
  ec_data_offset : Z
}.

(** Modelled from the spec: the fields of the VID header, in the order
    the specification lists them; the header checksum is computed by
    the encoder. *)
Record VIDHeader := mk_vid {
  vid_magic : Z;
  vid_version : Z;
  vid_vol_type : VolType;
  vid_copy_flag : Z;
  vid_compat : Z;
  vid_vol_id : Z;
  lnum : Z;
  sqnum : Z;
  used_bytes : Z;
  data_pad : Z;
  data_crc : Z
}.

(** *** Header Codec *)

Definition vol_type_code (t : VolType) : Z :=
  match t with Dynamic => 1 | Static => 2 end.

(** The serialized fields of an EC header, in order and without the
    checksum field; the encoder zero-fills the header from there up to
    the place of the checksum. *)
Definition ec_fields (h : ECHeader) : list byte :=
  be_encode 4 (ec_magic h) ++ be_encode 1 (ec_version h)
    ++ be_encode 8 (ec_erase_counter h)
    ++ be_encode 4 (ec_vid_hdr_offset h)
    ++ be_encode 4 (ec_data_offset h).

Definition pad_to (n : nat) (bs : list byte) : list byte :=
  bs ++ zeros (n - length bs).

(** Modelled from the spec: [encode_ec_header], section 4.1: the fields
    in order, a CRC-32 over all bytes except the checksum field, the
    checksum in the trailing field. *)
Definition encode_ec_header (h : ECHeader) : list byte :=
  let body := pad_to (EC_HDR_SIZE - CRC_SIZE) (ec_fields h) in
  body ++ be_encode CRC_SIZE (crc32 body).

Definition vid_fields (h : VIDHeader) : list byte :=
  be_encode 4 (vid_magic h) ++ be_encode 1 (vid_version h)
    ++ be_encode 1 (vol_type_code (vid_vol_type h))
    ++ be_encode 1 (vid_copy_flag h)
    ++ be_encode 1 (vid_compat h)
    ++ be_encode 4 (vid_vol_id h)
    ++ be_encode 4 (lnum h)
    ++ be_encode 8 (sqnum h)
    ++ be_encode 4 (used_bytes h)
    ++ be_encode 4 (data_pad h)
    ++ be_encode 4 (data_crc h).

(** Modelled from the spec: [encode_vid_header], section 4.1 (same
    pattern as the EC header). *)
Definition encode_vid_header (h : VIDHeader) : list byte :=
  let body := pad_to (VID_HDR_SIZE - CRC_SIZE) (vid_fields h) in
  body ++ be_encode CRC_SIZE (crc32 body).

(** Reading a header back: the checksum stored in the trailing field,
    and the checksum recomputed over the bytes before it. *)
Definition stored_crc (hdr : list byte) : Z :=
  be_decode (skipn (length hdr - CRC_SIZE) hdr).

Definition recomputed_crc (hdr : list byte) : Z :=
  crc32 (firstn (length hdr - CRC_SIZE) hdr).

(** The field of [w] bytes that starts [off] bytes into a header, and
    the two counters of a serialized VID header. *)
Definition field_at (off w : nat) (hdr : list byte) : Z :=
  be_decode (firstn w (skipn off hdr)).

Definition stored_lnum (vid : list byte) : Z := field_at 12 4 vid.
Definition stored_sqnum (vid : list byte) : Z := field_at 16 8 vid.

(** *** Image Builder *)

(** Modelled from the spec: the state the Image Builder owns for one
    session (sections 3 and 4.2): the volume parameters and the geometry
    with its defaults resolved. *)
Record Session := mk_session {
  s_peb_size : nat;
  s_min_io_size : nat;
  s_sub_page_size : nat;
  s_vid_hdr_offset : nat;
  s_alignment : nat;
  s_data_pad : nat;
  s_leb_size : nat;
  s_params : VolumeParams
}.

Definition align_up (x a : nat) : nat := ((x + a - 1) / a * a)%nat.

(** Modelled from the spec: the defaults of section 3: the sub-page size
    is the minimum I/O unit size when unspecified, and a zero VID header
    offset stands for twice the sub-page size, aligned up to it. *)
Definition resolve_sub_page_size (g : VolumeGeometry) : nat :=
  match sub_page_size g with
  | Some s => s
  | None => min_io_size g
  end.

Definition resolve_vid_hdr_offset (g : VolumeGeometry) : nat :=
  let sub := resolve_sub_page_size g in
  if Nat.eqb (vid_hdr_offset g) 0 then align_up (sub * 2) sub
  else vid_hdr_offset g.

(** The data area of a physical eraseblock before alignment. *)
Definition usable_size (g : VolumeGeometry) : nat :=
  (peb_size g - resolve_vid_hdr_offset g - VID_HDR_SIZE)%nat.

(** Modelled from the spec: the geometry checks of section 3 and of the
    configuration errors of section 7.  The EC header written at offset
    0 has to end where the gap before the VID header begins (section
    4.2, step e), hence the bound from below on the VID header offset. *)
Definition valid_geometry (g : VolumeGeometry) : bool :=
  let sub := resolve_sub_page_size g in
  let vho := resolve_vid_hdr_offset g in
  (Nat.ltb 0 (peb_size g)
   && Nat.ltb 0 (min_io_size g)
   && Nat.eqb (peb_size g mod min_io_size g) 0
   && Nat.ltb 0 sub
   && Nat.leb sub (min_io_size g)
   && Nat.leb EC_HDR_SIZE vho
   && Nat.leb (vho + VID_HDR_SIZE) (peb_size g)
   && Nat.ltb 0 (alignment g)
   && Nat.eqb (usable_size g mod alignment g) 0
   && Nat.ltb 0 (usable_size g - usable_size g mod alignment g))%bool.

(** Modelled from the spec: the error kinds of section 7 that the model
    can raise (its streams are lists and have no I/O errors). *)
Inductive error :=
| ConfigurationError
| InputContractError (consumed : nat).

(** Modelled from the spec: session construction (the Init state of
    section 4.2): the geometry is validated, [leb_size] is the usable
    size rounded down to a multiple of [alignment]. *)
Definition create (g : VolumeGeometry) (p : VolumeParams)
  : error + Session :=
  if valid_geometry g then
    let pad := (usable_size g mod alignment g)%nat in
    inr {| s_peb_size := peb_size g;
           s_min_io_size := min_io_size g;
           s_sub_page_size := resolve_sub_page_size g;
           s_vid_hdr_offset := resolve_vid_hdr_offset g;
           s_alignment := alignment g;
           s_data_pad := pad;
           s_leb_size := (usable_size g - pad)%nat;
           s_params := p |}
  else inl ConfigurationError.

(** Modelled from the spec: what a session produces for one physical
    eraseblock (section 3): the two headers and the payload read for
    it. *)
Record Block := mk_block {
  blk_ec : ECHeader;
  blk_vid : VIDHeader;
  blk_payload : list byte
}.

(** Modelled from the spec: the EC header of every block (section 3):
    the erase counter and the version of the session, the VID header
    offset, and the data offset right after the VID header. *)
Definition build_ec_header (s : Session) : ECHeader :=
  {| ec_magic := EC_HDR_MAGIC;
     ec_version := Z.of_nat (ubi_format_version (s_params s));
     ec_erase_counter := Z.of_nat (erase_counter (s_params s));
     ec_vid_hdr_offset := Z.of_nat (s_vid_hdr_offset s);
     ec_data_offset := Z.of_nat (s_vid_hdr_offset s + VID_HDR_SIZE) |}.

(** Modelled from the spec: section 4.2, step d: whether a block is the
    final block of a Static volume is decided by comparing the bytes
    emitted so far plus the bytes just read with the declared length. *)
Definition is_final (s : Session) (emitted n : nat) : bool :=
  match vol_type (s_params s) with
  | Static => Nat.leb (declared_data_length (s_params s)) (emitted + n)
  | Dynamic => false
  end.

(** Modelled from the spec: the VID header of a block (sections 3 and
    4.1): the counters of the loop, the copy and compatibility flags
    unset, and [used_bytes] and [data_crc] set from the payload on the
    final block of a Static volume and zero otherwise. *)
Definition build_vid_header (s : Session) (cur_lnum cur_sqnum emitted : nat)
           (payload : list byte) : VIDHeader :=
  let final := is_final s emitted (length payload) in
  {| vid_magic := VID_HDR_MAGIC;
     vid_version := Z.of_nat (ubi_format_version (s_params s));
     vid_vol_type := vol_type (s_params s);
     vid_copy_flag := 0;
     vid_compat := 0;
     vid_vol_id := Z.of_nat (vol_id (s_params s));
     lnum := Z.of_nat cur_lnum;
     sqnum := Z.of_nat cur_sqnum;
     used_bytes := if final then Z.of_nat (length payload) else 0;
     data_pad := Z.of_nat (s_data_pad s);
     data_crc := if final then crc32 payload else 0 |}.

(** Modelled from the spec: the bytes written for one block (section
    4.2, step e, and the output contract of section 6): EC header, zero
    gap up to the VID header offset, VID header, payload, zero tail up to
    [leb_size]. *)
Definition block_bytes (s : Session) (b : Block) : list byte :=
  encode_ec_header (blk_ec b)
    ++ zeros (s_vid_hdr_offset s - EC_HDR_SIZE)
    ++ encode_vid_header (blk_vid b)
    ++ blk_payload b
    ++ zeros (s_leb_size s - length (blk_payload b)).

(** Modelled from the spec: the states of a session after Init (section
    4.2). *)
Inductive state :=
| Writing
| Done
| Failed (e : error).

(** Modelled from the spec: how many bytes one iteration asks of the
    input stream (section 4.2, step a): up to [leb_size], and for a
    Static volume no more than the declared length still leaves, a Static
    session being over when the declared length is reached (sections 2
    and 3). *)
Definition read_size (s : Session) (emitted : nat) : nat :=
  match vol_type (s_params s) with
  | Dynamic => s_leb_size s
  | Static =>
      Nat.min (s_leb_size s) (declared_data_length (s_params s) - emitted)
  end.

(** Modelled from the spec: the Writing loop of section 4.2, steps a to
    f, with the policy of the same section for a Static volume whose
    input ends before the declared length.  The input stream is the
    list of bytes still to be read; [fuel] bounds the number of
    iterations, and the loop is still Writing when it runs out. *)
Fixpoint write_loop (fuel : nat) (s : Session)
         (cur_lnum cur_sqnum emitted : nat) (input : list byte)
  : list Block * state :=
  match fuel with
  | O => ([], Writing)
  | S fuel' =>
      let payload := firstn (read_size s emitted) input in
      match payload with
      | [] =>
          match vol_type (s_params s) with
          | Dynamic => ([], Done)
          | Static =>
              if Nat.leb (declared_data_length (s_params s)) emitted
              then ([], Done)
              else ([], Failed (InputContractError emitted))
          end
      | _ :: _ =>
          let b := {| blk_ec := build_ec_header s;
                      blk_vid := build_vid_header s cur_lnum cur_sqnum
                                                  emitted payload;
                      blk_payload := payload |} in
          let '(bs, st) :=
            write_loop fuel' s (S cur_lnum) (S cur_sqnum)
                       (emitted + length payload)
                       (skipn (read_size s emitted) input) in
          (b :: bs, st)
      end
  end.

(** Modelled from the spec: the write-complete-volume operation: the
    loop from the Init state ([lnum = 0], [sqnum = 0], nothing emitted).
    Every iteration that does not end the loop consumes at least one
    byte, so one more iteration than there are bytes is enough. *)
Definition write_complete_volume (s : Session) (input : list byte)
  : list Block * state :=
  write_loop (S (length input)) s 0 0 0 input.

(** The output stream: the emitted blocks one after the other. *)
Definition output_stream (s : Session) (bs : list Block) : list byte :=
  concat (map (block_bytes s) bs).

End Engine.

(* ================================================================= *)
(** ** Sample runs *)

Module Samples.
Import Ubigen.

(** The unit suffixes named by the error message of [parse_opt]; any
    other specifier is refused with -1. *)
Definition multiplier (s : string) : Z :=
  if String.eqb s "KiB" then 1024
  else if String.eqb s "MiB" then 1024 * 1024
  else if String.eqb s "GiB" then 1024 * 1024 * 1024
  else -1.

(** Every file opens, [fstat] reports 150000 bytes, the library calls
    succeed. *)
Definition env_ok : env := {|
  fopen_ok := fun _ _ => true;
  ubiutils_get_multiplier := multiplier;
  fstat_st_size := Some 150000;
  file_info_initial_st_size := 0;
  ubigen_create_err := fun _ => 0;
  ubigen_write_complete_err := 0;
  ubigen_destroy_err := 0
|}.

(** The same, but [fstat] fails and [file_info] holds 0x5eed on entry. *)
Definition env_fstat_fails : env := {|
  fopen_ok := fun _ _ => true;
  ubiutils_get_multiplier := multiplier;
  fstat_st_size := None;
  file_info_initial_st_size := 0x5eed;
  ubigen_create_err := fun _ => 0;
  ubigen_write_complete_err := 0;
  ubigen_destroy_err := 0
|}.

(** [ubigen -i in.bin -o out.img -b 64KiB -I 5 -m 2048] *)
Definition opts_plain : list (ascii * string) :=
  [("i"%char, "in.bin"); ("o"%char, "out.img"); ("b"%char, "64KiB");
   ("I"%char, "5"); ("m"%char, "2048")]%string.

(** [ubigen -i in.bin -o out.img -b 0 -I 5 -m 2048] *)
Definition opts_bad_peb : list (ascii * string) :=
  [("i"%char, "in.bin"); ("o"%char, "out.img"); ("b"%char, "0");
   ("I"%char, "5"); ("m"%char, "2048")]%string.

(** [ubigen -i in.bin -b -4294967295 -I 5 -m 2048] *)
Definition opts_wrapped_peb : list (ascii * string) :=
  [("i"%char, "in.bin"); ("b"%char, "-4294967295"); ("I"%char, "5");
   ("m"%char, "2048")]%string.

(** [ubigen -h -b 0] *)
Definition opts_help_bad_peb : list (ascii * string) :=
  [("h"%char, ""); ("b"%char, "0")]%string.

(** [ubigen -i in.bin -b 64KiB -I 5 -m 2048 -s 512] *)
Definition opts_sub_page : list (ascii * string) :=
  [("i"%char, "in.bin"); ("b"%char, "64KiB"); ("I"%char, "5");
   ("m"%char, "2048"); ("s"%char, "512")]%string.

(** [ubigen -V -s 512] *)
Definition opts_version_sub_page : list (ascii * string) :=
  [("V"%char, ""); ("s"%char, "512")]%string.

Definition byte_range (n : nat) : list byte :=
  map (fun i => byte_of_Z (Z.of_nat i)) (seq 1 n).

(** A small geometry: 64-byte headers back to back and six bytes of
    data in a physical eraseblock of 134 bytes. *)
Definition small_geometry : Engine.VolumeGeometry :=
  Engine.mk_geometry 134 1 None 64 1.

Definition dynamic_params : Engine.VolumeParams :=
  Engine.mk_params 5 Engine.Dynamic 0 1 0.

Definition static_params (declared : nat) : Engine.VolumeParams :=
  Engine.mk_params 5 Engine.Static 0 1 declared.

(** The geometry of the worked example: 64 KiB eraseblocks, 2 KiB pages,
    the VID header offset left to its default. *)
Definition nand_geometry : Engine.VolumeGeometry :=
  Engine.mk_geometry (Z.to_nat 65536) (Z.to_nat 2048) None 0 1.

Definition small_session (p : Engine.VolumeParams) : Engine.Session :=
  match Engine.create small_geometry p with
  | inr s => s
  | inl _ => Engine.mk_session 0 0 0 0 0 0 0 p
  end.

End Samples.

(* ================================================================= *)
(** ** Vocabulary of the statements *)

(** The number of physical eraseblocks that hold [len] bytes of data,
    [leb] bytes each. *)
Definition block_count (leb len : nat) : nat := ((len + leb - 1) / leb)%nat.

(** The state in which the Writing loop ends once the input stream, of
    [total] bytes, is exhausted. *)
Definition final_state (s : Engine.Session) (total : nat) : Engine.state :=
  match Engine.vol_type (Engine.s_params s) with
  | Engine.Dynamic => Engine.Done
  | Engine.Static =>
      if Nat.leb (Engine.declared_data_length (Engine.s_params s)) total
      then Engine.Done
      else Engine.Failed (Engine.InputContractError total)
  end.

(** The part of the input stream that a session which has emitted
    [emitted] bytes still reads: all of it for a Dynamic volume, and for
    a Static volume what the declared length leaves. *)
Definition readable (s : Engine.Session) (emitted : nat) (input : list byte)
  : list byte :=
  match Engine.vol_type (Engine.s_params s) with
  | Engine.Dynamic => input
  | Engine.Static =>
      firstn (Engine.declared_data_length (Engine.s_params s) - emitted) input
  end.


(** The two headers as they lie in the bytes of an emitted block. *)
Definition ec_header_of (bytes : list byte) : list byte :=
  firstn Engine.EC_HDR_SIZE bytes.

Definition vid_header_of (s : Engine.Session) (bytes : list byte) : list byte :=
  firstn Engine.VID_HDR_SIZE (skipn (Engine.s_vid_hdr_offset s) bytes).

(** The argument of [-b] or [-m] is not a positive integer as the
    [switch] checks it (lines 155 and 173): it does not begin with a
    number, so that [strtoull] converts nothing, or the number it begins
    with is zero or negative once assigned to the [int] field.  The check
    comes before any unit multiplier is applied. *)
Definition not_positive_size (optarg : string) : bool :=
  let '(v, endp) := strtoull optarg in
  (String.eqb endp optarg || (to_int v <=? 0))%bool.

(** The keys that end the program from inside the option loop. *)
Definition help_or_version (key : ascii) : bool :=
  (Ascii.eqb key "h" || Ascii.eqb key "V")%bool.

Definition no_help_or_version (opts : list (ascii * string)) : Prop :=
  Forall (fun o => help_or_version (fst o) = false) opts.

(** Calls into libubigen that construct or run a session. *)
Definition session_event (e : Ubigen.event) : bool :=
  match e with
  | Ubigen.ev_ubigen_create _ _
  | Ubigen.ev_ubigen_write_complete _
  | Ubigen.ev_ubigen_destroy _ => true
  | _ => false
  end.

(** What [parse_opt] does to the outside: it opens files and prints
    messages. *)
Definition opens_or_reports (e : Ubigen.event) : bool :=
  match e with
  | Ubigen.ev_fopen _ _ _ | Ubigen.ev_stderr _ => true
  | _ => false
  end.

(** Something is reported on [stderr]. *)
Definition reports (evs : list Ubigen.event) : Prop :=
  exists m, In (Ubigen.ev_stderr m) evs.

(** A run in which no session is constructed and nothing is written. *)
Definition no_session (evs : list Ubigen.event) : Prop :=
  Forall (fun e => session_event e = false) evs.

(** The option with key [key] is supplied. *)
Definition supplied (key : ascii) (opts : list (ascii * string)) : Prop :=
  exists optarg, In (key, optarg) opts.

(** The fields of [args] that no case of the [switch] assigns. *)
Definition untouched (a a' : Ubigen.args_t) : Prop :=
  Ubigen.sub_page_size a' = Ubigen.sub_page_size a /\
  Ubigen.alignment a' = Ubigen.alignment a.

(** An option that the [switch] answers with [return -1] whatever [args]
    holds. *)
Definition refused (E : Ubigen.env) (key : ascii) (optarg : string) : Prop :=
  forall a, exists evs a',
    Ubigen.switch_key E a key optarg = (evs, Ubigen.sw_return (-1) a').

(* ================================================================= *)
(** ** Vocabulary of the statements about the option loop *)

(** The value that the [-b] or [-m] case stores when it accepts its
    argument: the number read, times the multiplier of the unit suffix
    when there is one. *)
Definition size_value (E : Ubigen.env) (optarg : string) : option Z :=
  let '(v, endp) := strtoull optarg in
  let size := to_int v in
  if (String.eqb endp optarg || (size <=? 0))%bool then None
  else
    match endp with
    | EmptyString => Some size
    | _ =>
        let mult := Ubigen.ubiutils_get_multiplier E endp in
        if mult =? -1 then None else Some (to_int (size * mult))
    end.

(** The value that the [-e], [-I], [-x] or [-O] case stores when it
    accepts its argument. *)
Definition num_value (optarg : string) : option Z :=
  let '(v, endp) := strtoul optarg in
  let n := to_int v in
  if (String.eqb endp optarg || (n <? 0))%bool then None else Some n.

(** The volume type that the [-t] case stores when it accepts its
    argument. *)
Definition type_value (optarg : string) : option Ubigen.vol_type_t :=
  if String.eqb optarg "dynamic" then Some Ubigen.UBI_VID_DYNAMIC
  else if String.eqb optarg "static" then Some Ubigen.UBI_VID_STATIC
  else None.

(** The fields of [args] that an option can assign, what they hold, and
    the key of the option that assigns each. *)
Inductive field :=
| F_fp_in | F_fp_out | F_peb_size | F_id | F_min_io_size | F_type
| F_vid_hdr_offs | F_ec | F_ubi_ver.

Inductive value :=
| V_stream (f : option Ubigen.FILE)
| V_int (z : Z)
| V_type (t : Ubigen.vol_type_t).

Definition field_key (f : field) : ascii :=
  match f with
  | F_fp_in => "i" | F_fp_out => "o" | F_peb_size => "b" | F_id => "I"
  | F_min_io_size => "m" | F_type => "t" | F_vid_hdr_offs => "O"
  | F_ec => "e" | F_ubi_ver => "x"
  end.

Definition get_field (f : field) (a : Ubigen.args_t) : value :=
  match f with
  | F_fp_in => V_stream (Ubigen.fp_in a)
  | F_fp_out => V_stream (Ubigen.fp_out a)
  | F_peb_size => V_int (Ubigen.peb_size a)
  | F_id => V_int (Ubigen.id a)
  | F_min_io_size => V_int (Ubigen.min_io_size a)
  | F_type => V_type (Ubigen.type a)
  | F_vid_hdr_offs => V_int (Ubigen.vid_hdr_offs a)
  | F_ec => V_int (Ubigen.ec a)
  | F_ubi_ver => V_int (Ubigen.ubi_ver a)
  end.

(** What the option of field [f] stores for [optarg], when the option is
    accepted. *)
Definition option_value (E : Ubigen.env) (f : field) (optarg : string)
  : option value :=
  match f with
  | F_fp_in =>
      if Ubigen.fopen_ok E optarg "rb"
      then Some (V_stream (Some (Ubigen.opened optarg "rb"))) else None
  | F_fp_out =>
      if Ubigen.fopen_ok E optarg "wb"
      then Some (V_stream (Some (Ubigen.opened optarg "wb"))) else None
  | F_peb_size | F_min_io_size => option_map V_int (size_value E optarg)
  | F_id | F_vid_hdr_offs | F_ec | F_ubi_ver => option_map V_int (num_value optarg)
  | F_type => option_map V_type (type_value optarg)
  end.

(** The field that the option with key [key] assigns, if any. *)
Definition key_field (key : ascii) : option field :=
  if Ascii.eqb key "i" then Some F_fp_in
  else if Ascii.eqb key "o" then Some F_fp_out
  else if Ascii.eqb key "b" then Some F_peb_size
  else if Ascii.eqb key "I" then Some F_id
  else if Ascii.eqb key "m" then Some F_min_io_size
  else if Ascii.eqb key "t" then Some F_type
  else if Ascii.eqb key "O" then Some F_vid_hdr_offs
  else if Ascii.eqb key "e" then Some F_ec
  else if Ascii.eqb key "x" then Some F_ubi_ver
  else None.

(** An option that the [switch] turns down: a key without a case, or an
    argument that its case does not take. *)
Definition rejected (E : Ubigen.env) (key : ascii) (optarg : string) : bool :=
  if help_or_version key then false
  else
    match key_field key with
    | Some f =>
        match option_value E f optarg with Some _ => false | None => true end
    | None => true
    end.

(** An option after which the loop goes on. *)
Definition accepted (E : Ubigen.env) (o : ascii * string) : bool :=
  (negb (help_or_version (fst o)) && negb (rejected E (fst o) (snd o)))%bool.

(** What is printed for an option that is turned down. *)
Definition rejection_message (E : Ubigen.env) (key : ascii) (optarg : string)
  : Ubigen.message :=
  match key_field key with
  | Some F_fp_in | Some F_fp_out => Ubigen.cannot_open_file optarg
  | Some F_peb_size =>
      if not_positive_size optarg then Ubigen.bad_physical_eraseblock_size optarg
      else Ubigen.bad_size_specifier (snd (strtoull optarg))
  | Some F_min_io_size =>
      if not_positive_size optarg then Ubigen.bad_min_io_unit_size optarg
      else Ubigen.bad_size_specifier (snd (strtoull optarg))
  | Some F_id => Ubigen.bad_volume_ID optarg
  | Some F_type => Ubigen.bad_volume_type optarg
  | Some F_vid_hdr_offs => Ubigen.bad_VID_header_offset optarg
  | Some F_ec => Ubigen.bad_erase_counter_value optarg
  | Some F_ubi_ver => Ubigen.bad_UBI_version optarg
  | None =>
      if Ascii.eqb key ":" then Ubigen.parameter_is_missing
      else Ubigen.use_h_for_help
  end.

(** The [while (1)] loop of [parse_opt] alone: it ends with the [break]
    that follows [getopt_long] returning -1, or inside the [switch]. *)
Fixpoint option_loop (E : Ubigen.env) (a : Ubigen.args_t)
         (opts : list (ascii * string))
  : list Ubigen.event * Ubigen.switch_result :=
  match opts with
  | [] => ([], Ubigen.sw_break a)
  | (key, optarg) :: rest =>
      match Ubigen.switch_key E a key optarg with
      | (evs, Ubigen.sw_break a') =>
          let '(evs', r) := option_loop E a' rest in (evs ++ evs', r)
      | other => other
      end
  end.

(** The events of a loop over accepted options: the files they open, in
    the order of the command line. *)
Definition fopen_events (opts : list (ascii * string)) : list Ubigen.event :=
  flat_map (fun o =>
              match key_field (fst o) with
              | Some F_fp_in => [Ubigen.ev_fopen (snd o) "rb" true]
              | Some F_fp_out => [Ubigen.ev_fopen (snd o) "wb" true]
              | _ => []
              end) opts.

(** The values of a C [int]. *)
Definition int_range (z : Z) : Prop := - 2 ^ 31 <= z < 2 ^ 31.

(** A size that is still a non-negative [int] after its multiplier is
    applied; options other than [-b] and [-m] have nothing to fit. *)
Definition size_in_range (E : Ubigen.env) (o : ascii * string) : bool :=
  if (Ascii.eqb (fst o) "b" || Ascii.eqb (fst o) "m")%bool then
    match size_value E (snd o) with
    | Some v => 0 <=? v
    | None => false
    end
  else true.

(** The four options without which [parse_opt] gives up. *)
Definition mandatory_supplied (opts : list (ascii * string)) : Prop :=
  supplied "i" opts /\ supplied "I" opts /\ supplied "b" opts /\
  supplied "m" opts.

(* ================================================================= *)
(** ** More sample runs *)

Module Runs.
Import Ubigen.

(** [ubigen -i in.bin -b 64KiB -I 5 -m 2048] *)
Definition opts_minimal : list (ascii * string) :=
  [("i"%char, "in.bin"); ("b"%char, "64KiB"); ("I"%char, "5");
   ("m"%char, "2048")]%string.

(** [ubigen -i in.bin -t bogus -o out.img -b 64KiB] *)
Definition opts_bad_type : list (ascii * string) :=
  [("i"%char, "in.bin"); ("t"%char, "bogus"); ("o"%char, "out.img");
   ("b"%char, "64KiB")]%string.

(** [ubigen -o out.img -h -b 0] *)
Definition opts_help_after_outfile : list (ascii * string) :=
  [("o"%char, "out.img"); ("h"%char, ""); ("b"%char, "0")]%string.

(** [ubigen -i in.bin -t static -b 64KiB -I 5 -m 2048 -t dynamic] *)
Definition opts_type_twice : list (ascii * string) :=
  [("i"%char, "in.bin"); ("t"%char, "static"); ("b"%char, "64KiB");
   ("I"%char, "5"); ("m"%char, "2048"); ("t"%char, "dynamic")]%string.

(** Every file opens and [fstat] succeeds, but [ubigen_create] returns
    -22. *)
Definition env_create_fails : env := {|
  fopen_ok := fun _ _ => true;
  ubiutils_get_multiplier := Samples.multiplier;
  fstat_st_size := Some 150000;
  file_info_initial_st_size := 0;
  ubigen_create_err := fun _ => -22;
  ubigen_write_complete_err := 0;
  ubigen_destroy_err := 0
|}.

End Runs.

Ltac break_if :=
  match goal with
  | |- context [if ?c then _ else _] => destruct c eqn:?
  | H : context [if ?c then _ else _] |- _ => destruct c eqn:?
  end.

Ltac break_pair :=
  match goal with
  | H : (_, _) = (_, _) |- _ => inversion H; subst; clear H
  end.

(* ================================================================= *)
(** ** Bytes, big-endian fields and CRC-32: basic facts *)

Lemma Z_of_byte_range b : 0 <= Z_of_byte b < 256.
Proof.
  unfold Z_of_byte. pose proof (Byte.to_N_bounded b). lia.
Qed.

Lemma Z_of_byte_of_Z z : Z_of_byte (byte_of_Z z) = z mod 256.
Proof.
  unfold Z_of_byte, byte_of_Z.
  pose proof (Z.mod_pos_bound z 256 ltac:(lia)) as Hr.
  destruct (Byte.of_N (Z.to_N (z mod 256))) as [b |] eqn:Hb.
  - apply Byte.to_of_N in Hb. rewrite Hb. lia.
  - apply Byte.of_N_None_iff in Hb. lia.
Qed.

Lemma be_encode_length w z : length (be_encode w z) = w.
Proof. induction w; cbn [be_encode length]; congruence. Qed.

Lemma be_decode_acc bs : forall acc,
  fold_left (fun a b => a * 256 + Z_of_byte b) bs acc
  = acc * 256 ^ Z.of_nat (length bs) + be_decode bs.
Proof.
  unfold be_decode. induction bs as [| b bs IH]; intros acc; cbn [fold_left length].
  - cbn. lia.
  - rewrite IH, (IH (0 * 256 + Z_of_byte b)).
    rewrite Nat2Z.inj_succ, Z.pow_succ_r by lia. lia.
Qed.

Lemma be_decode_app bs cs :
  be_decode (bs ++ cs) = be_decode bs * 256 ^ Z.of_nat (length cs) + be_decode cs.
Proof.
  unfold be_decode at 1. rewrite fold_left_app. apply be_decode_acc.
Qed.

(** Reading a field back gives the value cut to the width of the field. *)
Lemma be_decode_encode w z : be_decode (be_encode w z) = z mod 2 ^ (8 * Z.of_nat w).
Proof.
  induction w as [| w IH].
  - cbn. symmetry. apply Z.mod_1_r.
  - cbn [be_encode].
    change (byte_of_Z (z / 2 ^ (8 * Z.of_nat w)) :: be_encode w z)
      with ([byte_of_Z (z / 2 ^ (8 * Z.of_nat w))] ++ be_encode w z).
    rewrite be_decode_app, be_encode_length, IH.
    unfold be_decode at 1. cbn [fold_left]. rewrite Z_of_byte_of_Z.
    replace (256 ^ Z.of_nat w) with (2 ^ (8 * Z.of_nat w))
      by (rewrite Z.pow_mul_r by lia; reflexivity).
    replace (8 * Z.of_nat (S w)) with (8 * Z.of_nat w + 8) by lia.
    rewrite Z.pow_add_r by lia.
    set (m := 2 ^ (8 * Z.of_nat w)).
    assert (Hm : 0 < m) by (apply Z.pow_pos_nonneg; lia).
    change (2 ^ 8) with 256.
    rewrite Z.rem_mul_r by lia. lia.
Qed.

Lemma lxor_below n a b :
  0 <= n -> 0 <= a < 2 ^ n -> 0 <= b < 2 ^ n -> 0 <= Z.lxor a b < 2 ^ n.
Proof.
  intros Hn Ha Hb.
  assert (H0 : 0 <= Z.lxor a b) by (apply Z.lxor_nonneg; lia).
  split; [assumption |].
  assert (Hs : Z.shiftr (Z.lxor a b) n = 0).
  { rewrite Z.shiftr_lxor, !Z.shiftr_div_pow2 by lia.
    rewrite !Z.div_small by lia. reflexivity. }
  rewrite Z.shiftr_div_pow2 in Hs by lia.
  apply Z.div_small_iff in Hs; lia.
Qed.

Lemma shiftr1_below n a : 0 <= a < 2 ^ n -> 0 <= Z.shiftr a 1 < 2 ^ n.
Proof.
  intros Ha. rewrite Z.shiftr_div_pow2 by lia. change (2 ^ 1) with 2.
  split; [apply Z.div_pos; lia |].
  apply Z.div_lt_upper_bound; lia.
Qed.

Lemma crc32_bit_range c : 0 <= c < 2 ^ 32 -> 0 <= crc32_bit c < 2 ^ 32.
Proof.
  intros Hc. unfold crc32_bit. pose proof (shiftr1_below 32 c Hc).
  destruct (Z.testbit c 0); [| assumption].
  apply lxor_below; [lia | assumption | unfold crc32_poly; lia].
Qed.

Lemma crc32_byte_range c b : 0 <= c < 2 ^ 32 -> 0 <= crc32_byte c b < 2 ^ 32.
Proof.
  intros Hc. unfold crc32_byte.
  assert (H : 0 <= Z.lxor c (Z_of_byte b) < 2 ^ 32).
  { apply lxor_below; [lia | assumption |].
    pose proof (Z_of_byte_range b). lia. }
  generalize dependent (Z.lxor c (Z_of_byte b)). intros x Hx.
  cbn [Nat.iter nat_rect]. do 8 apply crc32_bit_range. assumption.
Qed.

(** The checksum is a 32-bit value. *)
Lemma crc32_range data : 0 <= crc32 data < 2 ^ 32.
Proof.
  unfold crc32. apply lxor_below; [lia | | lia].
  assert (H : 0 <= 0xFFFFFFFF < 2 ^ 32) by lia.
  generalize dependent 0xFFFFFFFF.
  induction data as [| b data IH]; intros c Hc; cbn [fold_left];
    [assumption | apply IH, crc32_byte_range, Hc].
Qed.

(** The check value of the standard CRC-32: the checksum of the ASCII
    digits 1 to 9. *)
Example crc32_check_value :
  crc32 (map byte_of_ascii (list_ascii_of_string "123456789")) = 0xCBF43926.
Proof. vm_compute. reflexivity. Qed.

(* ================================================================= *)
(** ** Header Codec *)

Section Codec.
Import Engine.

Lemma zeros_length n : length (zeros n) = n.
Proof. apply repeat_length. Qed.

Lemma pad_to_length n bs : (length bs <= n)%nat -> length (pad_to n bs) = n.
Proof. intros H. unfold pad_to. rewrite length_app, zeros_length. lia. Qed.

Lemma ec_fields_length h : length (ec_fields h) = 21%nat.
Proof. unfold ec_fields. rewrite !length_app, !be_encode_length. reflexivity. Qed.

Lemma vid_fields_length h : length (vid_fields h) = 36%nat.
Proof. unfold vid_fields. rewrite !length_app, !be_encode_length. reflexivity. Qed.

Lemma ec_body_length h :
  length (pad_to (EC_HDR_SIZE - CRC_SIZE) (ec_fields h)) = (EC_HDR_SIZE - CRC_SIZE)%nat.
Proof. apply pad_to_length. rewrite ec_fields_length. cbn. lia. Qed.

Lemma vid_body_length h :
  length (pad_to (VID_HDR_SIZE - CRC_SIZE) (vid_fields h)) = (VID_HDR_SIZE - CRC_SIZE)%nat.
Proof. apply pad_to_length. rewrite vid_fields_length. cbn. lia. Qed.

Lemma encode_ec_header_length h : length (encode_ec_header h) = EC_HDR_SIZE.
Proof.
  unfold encode_ec_header. rewrite length_app, ec_body_length, be_encode_length.
  reflexivity.
Qed.

Lemma encode_vid_header_length h : length (encode_vid_header h) = VID_HDR_SIZE.
Proof.
  unfold encode_vid_header. rewrite length_app, vid_body_length, be_encode_length.
  reflexivity.
Qed.

(** A body followed by its checksum: what is stored in the trailing
    field is what recomputing over the bytes before it gives. *)
Lemma checksum_round_trip body :
  stored_crc (body ++ be_encode CRC_SIZE (crc32 body))
  = recomputed_crc (body ++ be_encode CRC_SIZE (crc32 body)).
Proof.
  unfold stored_crc, recomputed_crc.
  rewrite length_app, be_encode_length, Nat.add_sub.
  rewrite skipn_app, skipn_all, Nat.sub_diag, skipn_O, app_nil_l.
  rewrite firstn_app, firstn_all, Nat.sub_diag, firstn_O, app_nil_r.
  rewrite be_decode_encode. apply Z.mod_small.
  change (2 ^ (8 * Z.of_nat CRC_SIZE)) with (2 ^ 32). apply crc32_range.
Qed.

Lemma ec_header_round_trip h :
  stored_crc (encode_ec_header h) = recomputed_crc (encode_ec_header h).
Proof. apply checksum_round_trip. Qed.

Lemma vid_header_round_trip h :
  stored_crc (encode_vid_header h) = recomputed_crc (encode_vid_header h).
Proof. apply checksum_round_trip. Qed.

(** The field of [w] bytes at offset [off] of a header. *)
Lemma field_at_spec pre x post :
  field_at (length pre) (length x) (pre ++ x ++ post) = be_decode x.
Proof.
  unfold field_at.
  rewrite skipn_app, skipn_all, Nat.sub_diag, skipn_O, app_nil_l.
  rewrite firstn_app, firstn_all, Nat.sub_diag, firstn_O, app_nil_r.
  reflexivity.
Qed.

Lemma stored_lnum_spec h : stored_lnum (encode_vid_header h) = lnum h mod 2 ^ 32.
Proof.
  unfold stored_lnum, encode_vid_header, pad_to, vid_fields.
  set (pre := be_encode 4 (vid_magic h) ++ be_encode 1 (vid_version h)
                ++ be_encode 1 (vol_type_code (vid_vol_type h))
                ++ be_encode 1 (vid_copy_flag h) ++ be_encode 1 (vid_compat h)
                ++ be_encode 4 (vid_vol_id h)).
  match goal with
  | |- field_at _ _ (((_ ++ _ ++ _ ++ _ ++ _ ++ _ ++ ?x ++ ?t) ++ ?z) ++ ?c) = _ =>
      replace (field_at 12 4 _)
        with (field_at (length pre) (length x) (pre ++ x ++ (t ++ z) ++ c))
  end.
  - rewrite field_at_spec. apply be_decode_encode.
  - subst pre. rewrite !length_app, !be_encode_length. cbn [Nat.add].
    rewrite <- !app_assoc. reflexivity.
Qed.

Lemma stored_sqnum_spec h : stored_sqnum (encode_vid_header h) = sqnum h mod 2 ^ 64.
Proof.
  unfold stored_sqnum, encode_vid_header, pad_to, vid_fields.
  set (pre := be_encode 4 (vid_magic h) ++ be_encode 1 (vid_version h)
                ++ be_encode 1 (vol_type_code (vid_vol_type h))
                ++ be_encode 1 (vid_copy_flag h) ++ be_encode 1 (vid_compat h)
                ++ be_encode 4 (vid_vol_id h) ++ be_encode 4 (lnum h)).
  match goal with
  | |- field_at _ _ (((_ ++ _ ++ _ ++ _ ++ _ ++ _ ++ _ ++ ?x ++ ?t) ++ ?z) ++ ?c) = _ =>
      replace (field_at 16 8 _)
        with (field_at (length pre) (length x) (pre ++ x ++ (t ++ z) ++ c))
  end.
  - rewrite field_at_spec. apply be_decode_encode.
  - subst pre. rewrite !length_app, !be_encode_length. cbn [Nat.add].
    rewrite <- !app_assoc. reflexivity.
Qed.

End Codec.

(* ================================================================= *)
(** ** Image Builder *)

Section Builder.
Import Engine.

(** What a successfully constructed session guarantees. *)
Lemma create_spec g p s :
  create g p = inr s ->
  s_params s = p /\ s_peb_size s = peb_size g /\
  (0 < s_leb_size s)%nat /\
  (EC_HDR_SIZE <= s_vid_hdr_offset s)%nat /\
  (s_vid_hdr_offset s + VID_HDR_SIZE + s_leb_size s = peb_size g)%nat /\
  s_data_pad s = 0%nat.
Proof.
  unfold create. destruct (valid_geometry g) eqn:Hv; [| discriminate].
  intros H; inversion H; subst; clear H. cbn.
  unfold valid_geometry in Hv.
  repeat match goal with
         | H : (_ && _)%bool = true |- _ => apply andb_prop in H as [H ?]
         end.
  repeat match goal with
         | H : Nat.ltb _ _ = true |- _ => apply Nat.ltb_lt in H
         | H : Nat.leb _ _ = true |- _ => apply Nat.leb_le in H
         | H : Nat.eqb _ _ = true |- _ => apply Nat.eqb_eq in H
         end.
  unfold usable_size in *.
  repeat split; try assumption; lia.
Qed.

Lemma block_count_zero leb : (0 < leb)%nat -> block_count leb 0 = 0%nat.
Proof. intros H. unfold block_count. apply Nat.div_small. lia. Qed.

Lemma block_count_step leb len :
  (0 < leb)%nat -> (0 < len)%nat ->
  block_count leb len = S (block_count leb (len - leb)).
Proof.
  intros Hleb Hlen. unfold block_count.
  destruct (Nat.le_gt_cases len leb) as [Hle | Hgt].
  - replace (len - leb)%nat with 0%nat by lia.
    rewrite (Nat.div_small (0 + leb - 1)) by lia.
    symmetry. apply (Nat.div_unique _ _ _ (len - 1)); lia.
  - replace (len + leb - 1)%nat with ((len - leb + leb - 1) + 1 * leb)%nat by lia.
    rewrite Nat.div_add by lia. lia.
Qed.


Lemma firstn_nil_inv (A : Type) n (l : list A) :
  (0 < n)%nat -> firstn n l = [] -> l = [].
Proof. destruct n, l; cbn; intros; try lia; congruence. Qed.

(** One read, seen from the part of the stream the session still reads:
    the payload is its first [leb_size] bytes, and the rest of it is what
    the session reads afterwards. *)
Lemma read_payload s e input :
  firstn (read_size s e) input = firstn (s_leb_size s) (readable s e input).
Proof.
  unfold read_size, readable. destruct (vol_type (s_params s)); [reflexivity |].
  rewrite firstn_firstn. reflexivity.
Qed.

Lemma readable_step s e input :
  readable s (e + length (firstn (read_size s e) input))
           (skipn (read_size s e) input)
  = skipn (s_leb_size s) (readable s e input).
Proof.
  unfold read_size, readable. destruct (vol_type (s_params s)); [reflexivity |].
  set (d := (declared_data_length (s_params s) - e)%nat).
  set (leb := s_leb_size s).
  replace (declared_data_length (s_params s)
           - (e + length (firstn (Nat.min leb d) input)))%nat
    with (d - length (firstn (Nat.min leb d) input))%nat by lia.
  rewrite length_firstn.
  destruct (Nat.le_gt_cases leb d) as [Hle | Hgt].
  - rewrite (Nat.min_l leb d) by lia.
    destruct (Nat.le_gt_cases leb (length input)) as [Hin | Hin].
    + rewrite (Nat.min_l leb (length input)) by lia.
      replace d with (leb + (d - leb))%nat at 2 by lia.
      rewrite <- firstn_skipn_comm. reflexivity.
    + rewrite (skipn_all2 input) by lia. rewrite firstn_nil.
      symmetry. apply skipn_all2. rewrite length_firstn. lia.
  - rewrite (Nat.min_r leb d) by lia.
    rewrite (skipn_all2 (firstn d input)) by (rewrite length_firstn; lia).
    destruct (Nat.le_gt_cases d (length input)) as [Hin | Hin].
    + rewrite (Nat.min_l d (length input)) by lia.
      rewrite Nat.sub_diag. reflexivity.
    + rewrite (skipn_all2 input) by lia. apply firstn_nil.
Qed.

Lemma readable_length s e input : (length (readable s e input) <= length input)%nat.
Proof.
  unfold readable. destruct (vol_type (s_params s)); [lia |].
  rewrite length_firstn. lia.
Qed.

(** The blocks of the Writing loop, one by one: block [i] carries the
    [i]-th piece of what the session reads, and its headers are built
    from the counters advanced [i] times. *)
Lemma write_loop_blocks fuel s : forall l q e input bs st,
  write_loop fuel s l q e input = (bs, st) ->
  forall i b, nth_error bs i = Some b ->
    blk_ec b = build_ec_header s /\
    blk_payload b
    = firstn (s_leb_size s) (skipn (i * s_leb_size s) (readable s e input)) /\
    blk_payload b <> [] /\
    blk_vid b = build_vid_header s (l + i) (q + i)
                  (e + length (firstn (i * s_leb_size s) (readable s e input)))
                  (blk_payload b).
Proof.
  induction fuel as [| fuel IH]; intros l q e input bs st; cbn [write_loop].
  - intros H; inversion H; subst. intros [| i] b; discriminate.
  - destruct (firstn (read_size s e) input) as [| x payload] eqn:Hp.
    + intros H i b Hb.
      assert (bs = []) as ->
          by (destruct (vol_type (s_params s));
              [| destruct (Nat.leb _ _)]; inversion H; reflexivity).
      destruct i; discriminate.
    + destruct (write_loop fuel s (S l) (S q) (e + length (x :: payload))
                           (skipn (read_size s e) input)) as [bs' st'] eqn:Hrec.
      intros H; inversion H; subst; clear H.
      pose proof (readable_step s e input) as Hstep. rewrite Hp in Hstep.
      rewrite read_payload in Hp.
      intros [| i] b Hb; cbn [nth_error] in Hb.
      * inversion Hb; subst; clear Hb. cbn [blk_ec blk_payload blk_vid].
        cbn [Nat.mul skipn firstn length]. rewrite !Nat.add_0_r.
        repeat split; try congruence.
      * destruct (IH _ _ _ _ _ _ Hrec i b Hb) as (H1 & H2 & H3 & H4).
        rewrite Hstep in H2, H4.
        repeat split; try assumption.
        -- rewrite H2, skipn_skipn. f_equal. f_equal. cbn. lia.
        -- rewrite H4. f_equal; try lia.
           rewrite <- Hp, !length_firstn, length_skipn. cbn [Nat.mul]. lia.
Qed.

(** With more iterations than there are bytes the loop runs to its end:
    it leaves the Writing state, the blocks are as many as what the
    session reads needs, and their payloads are what it reads. *)
Lemma write_loop_result fuel s : forall l q e input,
  (0 < s_leb_size s)%nat -> (length input < fuel)%nat ->
  exists bs,
    write_loop fuel s l q e input
    = (bs, final_state s (e + length (readable s e input))) /\
    length bs = block_count (s_leb_size s) (length (readable s e input)) /\
    concat (map blk_payload bs) = readable s e input.
Proof.
  induction fuel as [| fuel IH]; intros l q e input Hleb Hfuel; [lia |].
  cbn [write_loop].
  destruct (firstn (read_size s e) input) as [| x payload] eqn:Hp.
  - rewrite read_payload in Hp.
    apply firstn_nil_inv in Hp; [rewrite Hp | assumption].
    exists []. cbn [length]. rewrite Nat.add_0_r, block_count_zero by assumption.
    unfold final_state.
    destruct (vol_type (s_params s)); [| destruct (Nat.leb _ _)]; auto.
  - assert (Hrs : (0 < read_size s e)%nat)
      by (destruct (read_size s e); [discriminate | lia]).
    assert (Hlen : (0 < length input)%nat)
      by (destruct input; [rewrite firstn_nil in Hp; discriminate | cbn; lia]).
    pose proof (readable_step s e input) as Hstep. rewrite Hp in Hstep.
    rewrite read_payload in Hp.
    assert (HR : (0 < length (readable s e input))%nat)
      by (destruct (readable s e input);
          [rewrite firstn_nil in Hp; discriminate | cbn; lia]).
    destruct (IH (S l) (S q) (e + length (x :: payload))%nat
                 (skipn (read_size s e) input) Hleb) as (bs & Hrec & Hcount & Hcat).
    { rewrite length_skipn. lia. }
    rewrite Hstep in Hrec, Hcount, Hcat.
    rewrite Hrec. eexists. split; [| split].
    + f_equal. f_equal. rewrite <- Hp, length_firstn, length_skipn. lia.
    + cbn [length]. rewrite Hcount, length_skipn.
      symmetry. apply block_count_step; assumption.
    + cbn [map concat blk_payload]. rewrite Hcat, <- Hp. apply firstn_skipn.
Qed.

Lemma write_complete_volume_result s input :
  (0 < s_leb_size s)%nat ->
  exists bs,
    write_complete_volume s input
    = (bs, final_state s (length (readable s 0 input))) /\
    length bs = block_count (s_leb_size s) (length (readable s 0 input)) /\
    concat (map blk_payload bs) = readable s 0 input.
Proof.
  intros Hleb. unfold write_complete_volume.
  destruct (write_loop_result (S (length input)) s 0 0 0 input Hleb)
    as (bs & H); [lia | eauto].
Qed.

Lemma write_complete_volume_blocks s input bs st i b :
  write_complete_volume s input = (bs, st) ->
  nth_error bs i = Some b ->
  blk_ec b = build_ec_header s /\
  blk_payload b
  = firstn (s_leb_size s) (skipn (i * s_leb_size s) (readable s 0 input)) /\
  blk_payload b <> [] /\
  blk_vid b = build_vid_header s i i
                (length (firstn (i * s_leb_size s) (readable s 0 input)))
                (blk_payload b).
Proof.
  unfold write_complete_volume. intros H Hb.
  exact (write_loop_blocks _ _ _ _ _ _ _ _ H i b Hb).
Qed.

(** A Static session that is short of input reads all of it. *)
Lemma readable_short s input :
  vol_type (s_params s) = Static ->
  (length input < declared_data_length (s_params s))%nat ->
  readable s 0 input = input.
Proof.
  intros Ht Hshort. unfold readable. rewrite Ht, Nat.sub_0_r.
  apply firstn_all2. lia.
Qed.

(** The bytes of a block of a constructed session. *)
Lemma block_bytes_length g p s b :
  create g p = inr s ->
  (length (blk_payload b) <= s_leb_size s)%nat ->
  length (block_bytes s b) = peb_size g.
Proof.
  intros Hc Hp. apply create_spec in Hc as (_ & _ & _ & Hec & Hsum & _).
  unfold block_bytes.
  rewrite !length_app, encode_ec_header_length, encode_vid_header_length,
    !zeros_length.
  lia.
Qed.

Lemma ec_header_of_block s b :
  ec_header_of (block_bytes s b) = encode_ec_header (blk_ec b).
Proof.
  unfold ec_header_of, block_bytes.
  rewrite firstn_app, encode_ec_header_length, Nat.sub_diag, firstn_O, app_nil_r.
  apply firstn_all2. rewrite encode_ec_header_length. lia.
Qed.

Lemma vid_header_of_block s b :
  (EC_HDR_SIZE <= s_vid_hdr_offset s)%nat ->
  vid_header_of s (block_bytes s b) = encode_vid_header (blk_vid b).
Proof.
  intros Hec. unfold vid_header_of, block_bytes.
  rewrite app_assoc.
  rewrite skipn_app, skipn_all2
    by (rewrite length_app, encode_ec_header_length, zeros_length; lia).
  rewrite length_app, encode_ec_header_length, zeros_length.
  replace (s_vid_hdr_offset s - (EC_HDR_SIZE + (s_vid_hdr_offset s - EC_HDR_SIZE)))%nat
    with 0%nat by lia.
  rewrite skipn_O, app_nil_l.
  rewrite firstn_app, encode_vid_header_length, Nat.sub_diag, firstn_O, app_nil_r.
  apply firstn_all2. rewrite encode_vid_header_length. lia.
Qed.

End Builder.

(* ================================================================= *)
(** ** Properties of the emitted image *)

Section Image.
Import Engine.

Lemma emitted_payload_fits s input bs st b :
  write_complete_volume s input = (bs, st) -> In b bs ->
  (length (blk_payload b) <= s_leb_size s)%nat.
Proof.
  intros Hw Hin. apply In_nth_error in Hin as [i Hi].
  destruct (write_complete_volume_blocks _ _ _ _ _ _ Hw Hi) as (_ & -> & _).
  rewrite length_firstn. lia.
Qed.

Lemma output_stream_length g p s bs :
  create g p = inr s ->
  (forall b, In b bs -> (length (blk_payload b) <= s_leb_size s)%nat) ->
  length (output_stream s bs) = (length bs * peb_size g)%nat.
Proof.
  intros Hc. unfold output_stream.
  induction bs as [| b bs IH]; intros Hfit; [reflexivity |].
  cbn [map concat length]. rewrite length_app, IH.
  - rewrite (block_bytes_length g p s b Hc); [cbn; lia |].
    apply Hfit. left; reflexivity.
  - intros b' Hb'. apply Hfit. right; assumption.
Qed.

(** C1: in a session constructed from a valid geometry, whatever the
    input stream, every block that the complete-volume write emits is
    exactly [peb_size] bytes long and consists of the EC header, the
    zero gap up to the VID header offset, the VID header, the payload and
    the zero tail; the output stream is these blocks one after the
    other, and the write has left the Writing state. *)
Theorem emitted_blocks_have_peb_size g p s input bs st :
  create g p = inr s ->
  write_complete_volume s input = (bs, st) ->
  (forall b, In b bs ->
     length (block_bytes s b) = peb_size g /\
     exists ec gap vid tail,
       block_bytes s b = ec ++ gap ++ vid ++ blk_payload b ++ tail /\
       ec = encode_ec_header (blk_ec b) /\ length ec = EC_HDR_SIZE /\
       gap = zeros (s_vid_hdr_offset s - EC_HDR_SIZE) /\
       (length ec + length gap = s_vid_hdr_offset s)%nat /\
       vid = encode_vid_header (blk_vid b) /\ length vid = VID_HDR_SIZE /\
       tail = zeros (s_leb_size s - length (blk_payload b)) /\
       (length (blk_payload b) + length tail = s_leb_size s)%nat) /\
  length (output_stream s bs) = (length bs * peb_size g)%nat /\
  st <> Writing.
Proof.
  intros Hc Hw. split; [| split].
  - intros b Hin.
    pose proof (emitted_payload_fits _ _ _ _ _ Hw Hin) as Hfit.
    split; [eapply block_bytes_length; eassumption |].
    apply create_spec in Hc as (_ & _ & _ & Hec & _ & _).
    do 4 eexists. split; [reflexivity |].
    rewrite encode_ec_header_length, encode_vid_header_length, !zeros_length.
    repeat split; lia.
  - eapply output_stream_length; [eassumption |].
    intros b Hin. eapply emitted_payload_fits; eassumption.
  - apply create_spec in Hc as (_ & _ & Hleb & _).
    destruct (write_complete_volume_result s input Hleb) as (bs' & Hw' & _).
    rewrite Hw in Hw'. inversion Hw'; subst. unfold final_state.
    destruct (vol_type (s_params s)); [| destruct (Nat.leb _ _)]; discriminate.
Qed.

(** C2: within one session the VID header of the [i]-th emitted block
    (counting from 0) is built with [lnum = i] and [sqnum = i]: both
    start at 0 and go up by exactly one per block, without gaps, repeats
    or resets.  The serialized header holds them in its 4-byte and
    8-byte fields. *)
Theorem lnum_and_sqnum_count_the_blocks g p s input bs st i b :
  create g p = inr s ->
  write_complete_volume s input = (bs, st) ->
  nth_error bs i = Some b ->
  lnum (blk_vid b) = Z.of_nat i /\
  sqnum (blk_vid b) = Z.of_nat i /\
  stored_lnum (vid_header_of s (block_bytes s b)) = Z.of_nat i mod 2 ^ 32 /\
  stored_sqnum (vid_header_of s (block_bytes s b)) = Z.of_nat i mod 2 ^ 64.
Proof.
  intros Hc Hw Hb.
  apply create_spec in Hc as (_ & _ & _ & Hec & _ & _).
  destruct (write_complete_volume_blocks _ _ _ _ _ _ Hw Hb) as (_ & _ & _ & Hvid).
  assert (Hl : lnum (blk_vid b) = Z.of_nat i) by (rewrite Hvid; reflexivity).
  assert (Hq : sqnum (blk_vid b) = Z.of_nat i) by (rewrite Hvid; reflexivity).
  rewrite (vid_header_of_block s b Hec), stored_lnum_spec, stored_sqnum_spec.
  rewrite Hl, Hq. repeat split.
Qed.

(** C3: a Static session whose input stream ends before the declared
    data length fails with the input-contract error that carries the
    number of bytes consumed, which is all the input; the blocks emitted
    are those that carry the bytes read, and none comes after the
    shortfall is met. *)
Theorem short_static_input_fails g p s input :
  create g p = inr s ->
  vol_type p = Static ->
  (length input < declared_data_length p)%nat ->
  exists bs,
    write_complete_volume s input
    = (bs, Failed (InputContractError (length input))) /\
    length bs = block_count (s_leb_size s) (length input) /\
    concat (map blk_payload bs) = input.
Proof.
  intros Hc Ht Hshort.
  apply create_spec in Hc as (Hp & _ & Hleb & _).
  destruct (write_complete_volume_result s input Hleb) as (bs & Hw & Hn & Hcat).
  rewrite readable_short in Hw, Hn, Hcat by (rewrite Hp; assumption).
  exists bs. split; [| split; assumption].
  rewrite Hw. unfold final_state. rewrite Hp, Ht.
  destruct (Nat.leb_spec (declared_data_length p) (length input)); [lia |].
  reflexivity.
Qed.

(** C4: for every block emitted in a Dynamic session, the checksum held
    in the trailing field of its EC header, and of its VID header, is
    the CRC-32 recomputed over the bytes of that header before the
    checksum field. *)
Theorem dynamic_header_checksums_round_trip g p s input bs st b :
  create g p = inr s ->
  vol_type p = Dynamic ->
  write_complete_volume s input = (bs, st) ->
  In b bs ->
  stored_crc (ec_header_of (block_bytes s b))
  = recomputed_crc (ec_header_of (block_bytes s b)) /\
  stored_crc (vid_header_of s (block_bytes s b))
  = recomputed_crc (vid_header_of s (block_bytes s b)).
Proof.
  intros Hc _ _ _. apply create_spec in Hc as (_ & _ & _ & Hec & _ & _).
  rewrite ec_header_of_block, (vid_header_of_block s b Hec).
  split; [apply ec_header_round_trip | apply vid_header_round_trip].
Qed.



(** Such sessions exist: a Static session completes successfully whenever
    the input holds the declared length. *)
Lemma static_session_completes g p s input :
  create g p = inr s ->
  vol_type p = Static ->
  (declared_data_length p <= length input)%nat ->
  exists bs, write_complete_volume s input = (bs, Done).
Proof.
  intros Hc Ht Hin.
  apply create_spec in Hc as (Hp & _ & Hleb & _).
  destruct (write_complete_volume_result s input Hleb) as (bs & Hw & _).
  exists bs. rewrite Hw. f_equal.
  unfold final_state, readable. rewrite Hp, Ht, Nat.sub_0_r, length_firstn.
  destruct (Nat.leb_spec (declared_data_length p)
                         (Nat.min (declared_data_length p) (length input)));
    [reflexivity | lia].
Qed.

End Image.

(** The worked example: with 64 KiB eraseblocks and 2 KiB pages the VID
    header goes to offset 4096, a logical eraseblock holds 61376 bytes,
    and 150000 bytes of input need three blocks. *)
Example nand_geometry_session :
  match Engine.create Samples.nand_geometry Samples.dynamic_params with
  | inr s =>
      Z.of_nat (Engine.s_vid_hdr_offset s) = 4096 /\
      Z.of_nat (Engine.s_leb_size s) = 65536 - 4096 - Z.of_nat Engine.VID_HDR_SIZE /\
      Z.of_nat (block_count (Engine.s_leb_size s) (Z.to_nat 150000)) = 3
  | inl _ => False
  end.
Proof. vm_compute. repeat split. Qed.

(** Empty input to a Dynamic volume: no block, and the session is Done. *)
Example empty_dynamic_input :
  Engine.write_complete_volume (Samples.small_session Samples.dynamic_params) []
  = ([], Engine.Done).
Proof. reflexivity. Qed.

(** Fourteen bytes written as a Dynamic volume with the small geometry:
    three blocks of 134 bytes. *)
Lemma emitted_blocks_have_peb_size_witness :
  let s := Samples.small_session Samples.dynamic_params in
  let bs := fst (Engine.write_complete_volume s (Samples.byte_range 14)) in
  length bs = 3%nat /\
  (forall b, In b bs -> length (Engine.block_bytes s b) = 134%nat) /\
  length (Engine.output_stream s bs) = (3 * 134)%nat.
Proof.
  intros s bs.
  destruct (emitted_blocks_have_peb_size
              Samples.small_geometry Samples.dynamic_params s
              (Samples.byte_range 14) bs
              (snd (Engine.write_complete_volume s (Samples.byte_range 14))))
    as (Hblocks & Hstream & _).
  - vm_compute; reflexivity.
  - vm_compute; reflexivity.
  - split; [vm_compute; reflexivity |].
    split; [intros b Hb; exact (proj1 (Hblocks b Hb)) | exact Hstream].
Defined.

(** The third of these blocks has [lnum] and [sqnum] 2. *)
Lemma lnum_and_sqnum_count_the_blocks_witness :
  let s := Samples.small_session Samples.dynamic_params in
  exists b,
    nth_error (fst (Engine.write_complete_volume s (Samples.byte_range 14))) 2
    = Some b /\
    Engine.lnum (Engine.blk_vid b) = 2 /\ Engine.sqnum (Engine.blk_vid b) = 2 /\
    Engine.stored_lnum (vid_header_of s (Engine.block_bytes s b)) = 2 /\
    Engine.stored_sqnum (vid_header_of s (Engine.block_bytes s b)) = 2.
Proof.
  intros s.
  destruct (nth_error (fst (Engine.write_complete_volume s (Samples.byte_range 14))) 2)
    as [b |] eqn:Hb; [| vm_compute in Hb; discriminate].
  exists b. split; [reflexivity |].
  apply (lnum_and_sqnum_count_the_blocks
           Samples.small_geometry Samples.dynamic_params s
           (Samples.byte_range 14)
           (fst (Engine.write_complete_volume s (Samples.byte_range 14)))
           (snd (Engine.write_complete_volume s (Samples.byte_range 14)))
           2 b).
  - vm_compute; reflexivity.
  - vm_compute; reflexivity.
  - exact Hb.
Defined.

(** Fourteen bytes for a Static volume declared to hold twenty. *)
Lemma short_static_input_fails_witness :
  exists bs,
    Engine.write_complete_volume
      (Samples.small_session (Samples.static_params 20)) (Samples.byte_range 14)
    = (bs, Engine.Failed (Engine.InputContractError 14)) /\
    length bs = 3%nat.
Proof.
  destruct (short_static_input_fails
              Samples.small_geometry (Samples.static_params 20)
              (Samples.small_session (Samples.static_params 20))
              (Samples.byte_range 14))
    as (bs & Hw & Hn & _).
  - vm_compute; reflexivity.
  - reflexivity.
  - vm_compute; lia.
  - exists bs. split; [exact Hw | exact Hn].
Defined.

(** The checksums of the three blocks of the Dynamic volume. *)
Lemma dynamic_header_checksums_round_trip_witness :
  let s := Samples.small_session Samples.dynamic_params in
  Forall (fun b =>
            Engine.stored_crc (ec_header_of (Engine.block_bytes s b))
            = Engine.recomputed_crc (ec_header_of (Engine.block_bytes s b)) /\
            Engine.stored_crc (vid_header_of s (Engine.block_bytes s b))
            = Engine.recomputed_crc (vid_header_of s (Engine.block_bytes s b)))
         (fst (Engine.write_complete_volume s (Samples.byte_range 14))).
Proof.
  intros s. apply Forall_forall. intros b Hb.
  apply (dynamic_header_checksums_round_trip
           Samples.small_geometry Samples.dynamic_params s
           (Samples.byte_range 14)
           (fst (Engine.write_complete_volume s (Samples.byte_range 14)))
           (snd (Engine.write_complete_volume s (Samples.byte_range 14)))
           b).
  - vm_compute; reflexivity.
  - reflexivity.
  - vm_compute; reflexivity.
  - exact Hb.
Defined.


(** A Static session declared to hold one byte and fed fourteen reads the
    one byte: it completes with a single block whose [used_bytes] is 1,
    the declared length modulo [leb_size]. *)
Example over_long_static_input_is_cut_at_declared_length :
  let s := Samples.small_session (Samples.static_params 1) in
  let r := Engine.write_complete_volume s (Samples.byte_range 14) in
  snd r = Engine.Done /\
  map (fun b => (Engine.used_bytes (Engine.blk_vid b),
                 length (Engine.blk_payload b))) (fst r) = [(1, 1%nat)].
Proof. vm_compute. split; reflexivity. Qed.

(* ================================================================= *)
(** ** Properties of the command-line front end *)

Section FrontEnd.
Import Ubigen.
Variable E : env.

(** What a size option can do: refuse with -1, or store a value in the
    field it is given. *)
Lemma parse_size_cases optarg bad set evs r :
  parse_size E optarg bad set = (evs, r) ->
  no_session evs /\
  ((reports evs /\ exists v, r = sw_return (-1) (set v)) \/
   (not_positive_size optarg = false /\ exists v, r = sw_break (set v))).
Proof.
  unfold parse_size, not_positive_size, reports.
  destruct (strtoull optarg) as [v endp].
  destruct (String.eqb endp optarg || (to_int v <=? 0))%bool.
  - intros H; break_pair. split.
    + repeat constructor.
    + left. split; [eexists; left; reflexivity | eauto].
  - destruct endp.
    + intros H; break_pair. split; [constructor | right; eauto].
    + destruct (ubiutils_get_multiplier E _ =? -1);
        intros H; break_pair; (split; [repeat constructor |]).
      * left. split; [eexists; left; reflexivity | eauto].
      * right; eauto.
Qed.

Lemma parse_num_cases optarg bad set evs r :
  parse_num optarg bad set = (evs, r) ->
  no_session evs /\
  exists v, (reports evs /\ r = sw_return (-1) (set v)) \/ r = sw_break (set v).
Proof.
  unfold parse_num, reports. destruct (strtoul optarg) as [v endp].
  destruct (String.eqb endp optarg || (to_int v <? 0))%bool;
    intros H; break_pair; (split; [repeat constructor |]); exists (to_int v).
  - left. split; [eexists; left; reflexivity | reflexivity].
  - right; reflexivity.
Qed.

Lemma switch_key_spec a key optarg evs r :
  switch_key E a key optarg = (evs, r) ->
  no_session evs /\
  match r with
  | sw_break a' =>
      untouched a a' /\ help_or_version key = false /\
      (Ascii.eqb key "x" = false -> ubi_ver a' = ubi_ver a)
  | sw_return rc a' => rc = -1 /\ help_or_version key = false /\ reports evs
  | sw_exit status => status = EXIT_SUCCESS /\ help_or_version key = true
  end.
Proof.
  unfold switch_key, is_key.
  repeat match goal with
         | |- context [if Ascii.eqb key ?c then _ else _] =>
             let H := fresh "K" in
             destruct (Ascii.eqb key c) eqn:H;
             [ apply Ascii.eqb_eq in H; subst key | ]
         end;
    try (intros H;
         first [ apply parse_size_cases in H as [Hev [[Hrep [v ->]] | [_ [v ->]]]]
               | apply parse_num_cases in H as [Hev [v [[Hrep ->] | ->]]] ];
         unfold help_or_version, untouched; cbn;
         intuition (discriminate || auto); fail);
    repeat break_if; intros H; break_pair;
    unfold help_or_version, untouched, reports; cbn;
    repeat match goal with K : Ascii.eqb _ _ = false |- _ => rewrite K end;
    (split; [repeat constructor | eauto 7]).
Qed.


Lemma after_loop_spec a evs r :
  after_loop a = (evs, r) ->
  no_session evs /\
  exists rc a',
    r = returns (rc, a') /\ (rc = 0 \/ rc = -1) /\
    alignment a' = alignment a /\ ubi_ver a' = ubi_ver a /\
    (rc = 0 ->
     0 <= min_io_size a' /\
     (sub_page_size a < 0 -> sub_page_size a' = min_io_size a')).
Proof.
  unfold after_loop.
  destruct (fp_in a); [destruct (fp_out a) |];
    repeat break_if; intros H; break_pair;
    (split; [repeat constructor | ]);
    do 2 eexists; (split; [reflexivity |]); cbn in *;
    repeat split; auto; try discriminate; try lia.
Qed.

(** The option loop followed by the final checks. *)
Lemma parse_opt_spec opts : forall a evs r,
  parse_opt E a opts = (evs, r) ->
  no_session evs /\
  match r with
  | returns (rc, a') =>
      (rc = 0 \/ rc = -1) /\
      (rc = 0 ->
       alignment a' = alignment a /\
       0 <= min_io_size a' /\
       (sub_page_size a < 0 -> sub_page_size a' = min_io_size a') /\
       (~ supplied "x" opts -> ubi_ver a' = ubi_ver a))
  | exits status => status = EXIT_SUCCESS /\ ~ no_help_or_version opts
  end.
Proof.
  induction opts as [| [key optarg] rest IH]; intros a evs r; cbn [parse_opt].
  - intros H. apply after_loop_spec in H
      as [Hev (rc & a' & -> & Hrc & Hal & Hver & H0)].
    split; [assumption |]. split; [assumption |].
    intros Hz. destruct (H0 Hz). auto.
  - destruct (switch_key E a key optarg) as [evs1 sw] eqn:Hsw.
    apply switch_key_spec in Hsw as [Hev1 Hsw].
    destruct sw as [a1 | rc a1 | status].
    + destruct (parse_opt E a1 rest) as [evs2 r2] eqn:Hrest.
      intros H; break_pair.
      apply IH in Hrest as [Hev2 Hr].
      destruct Hsw as [[Hsub Hal] [Hhv Hver]].
      split; [apply Forall_app; auto |].
      destruct r as [[rc a'] | status].
      * destruct Hr as [Hrc Hr]. split; [assumption |].
        intros Hz. destruct (Hr Hz) as (H1 & H2 & H3 & H4).
        split; [congruence |]. split; [assumption |]. split.
        -- intros Hlt. apply H3. lia.
        -- intros Hx. rewrite H4, Hver; auto.
           ++ destruct (Ascii.eqb key "x") eqn:Hk; [| reflexivity].
              apply Ascii.eqb_eq in Hk; subst. exfalso; apply Hx.
              exists optarg. left; reflexivity.
           ++ intros [o Ho]. apply Hx. exists o. right; assumption.
      * destruct Hr as [Hst Hr]. split; [assumption |].
        intros Hn. apply Hr. inversion Hn; assumption.
    + intros H; break_pair. destruct Hsw as [-> _].
      split; [assumption |]. split; [auto | discriminate].
    + intros H; break_pair. destruct Hsw as [-> Hhv].
      split; [assumption |]. split; [reflexivity |].
      intros Hn. inversion Hn; subst. cbn in *. congruence.
Qed.

Lemma refused_bad_size key optarg :
  key = "b"%char \/ key = "m"%char ->
  not_positive_size optarg = true -> refused E key optarg.
Proof.
  unfold not_positive_size, refused.
  intros [-> | ->] Hbad a; unfold switch_key; cbn [is_key Ascii.eqb Bool.eqb];
    unfold parse_size; destruct (strtoull optarg) as [v endp];
    rewrite Hbad; eauto.
Qed.

Lemma refused_unhandled key optarg :
  key = "s"%char \/ key = "a"%char -> refused E key optarg.
Proof.
  intros [-> | ->] a; unfold switch_key; cbn; eauto.
Qed.

(** A refused option makes [parse_opt] report and return -1, unless an
    earlier option has already ended the program. *)
Lemma parse_opt_refused key optarg post :
  refused E key optarg ->
  forall pre a, exists evs,
    no_session evs /\
    ((reports evs /\
      exists a', parse_opt E a (pre ++ (key, optarg) :: post)
                 = (evs, returns (-1, a'))) \/
     (parse_opt E a (pre ++ (key, optarg) :: post)
      = (evs, exits EXIT_SUCCESS) /\ ~ no_help_or_version pre)).
Proof.
  intros Hre. induction pre as [| [k o] pre IH]; intros a; cbn [app parse_opt].
  - destruct (Hre a) as (evs & a' & Hsw).
    pose proof (switch_key_spec _ _ _ _ _ Hsw) as [Hev (_ & _ & Hrep)].
    rewrite Hsw. exists evs. split; [assumption |]. left; eauto.
  - destruct (switch_key E a k o) as [evs1 sw] eqn:Hsw.
    apply switch_key_spec in Hsw as [Hev1 Hsw].
    destruct sw as [a1 | rc a1 | status].
    + destruct (IH a1) as (evs2 & Hev2 & [[[m Hm] [a' H]] | [H Hn]]); rewrite H.
      * exists (evs1 ++ evs2). split; [apply Forall_app; auto |]. left.
        split; [exists m; apply in_or_app; auto | eauto].
      * exists (evs1 ++ evs2). split; [apply Forall_app; auto |]. right.
        split; [reflexivity |]. intros Hf. apply Hn. inversion Hf; assumption.
    + destruct Hsw as (-> & _ & Hrep). exists evs1.
      split; [assumption |]. left; eauto.
    + destruct Hsw as [-> Hhv]. exists evs1. split; [assumption |]. right.
      split; [reflexivity |]. intros Hf. inversion Hf; subst. cbn in *. congruence.
Qed.

(** [main] after a failed or ended [parse_opt]. *)
Lemma main_parse_failed opts evs a :
  parse_opt E args opts = (evs, returns (-1, a)) ->
  main E opts = (ev_ubigen_init :: evs, returns (-1)).
Proof. unfold main. intros ->. reflexivity. Qed.

Lemma main_parse_exited opts evs status :
  parse_opt E args opts = (evs, exits status) ->
  main E opts = (ev_ubigen_init :: evs, exits status).
Proof. unfold main. intros ->. reflexivity. Qed.

Lemma main_parse_ok opts evs a :
  parse_opt E args opts = (evs, returns (0, a)) ->
  main E opts = (ev_ubigen_init :: evs ++ fst (run_session E a),
                 snd (run_session E a)).
Proof.
  unfold main. intros ->. cbn. destruct (run_session E a); reflexivity.
Qed.

(** The session part starts with [fstat] and the call of
    [ubigen_create], and calls it only once. *)
Lemma run_session_events a :
  exists tail,
    fst (run_session E a)
    = fst (fstat_input_len E)
        ++ ev_ubigen_create (create_call a (snd (fstat_input_len E)))
             (ubigen_create_err E (create_call a (snd (fstat_input_len E))))
        :: tail /\
    forall c err, ~ In (ev_ubigen_create c err) (fst (fstat_input_len E) ++ tail).
Proof.
  unfold run_session.
  destruct (fstat_input_len E) as [stat_evs input_len] eqn:Hst. cbn [fst snd].
  assert (Hs : forall c err, ~ In (ev_ubigen_create c err) stat_evs).
  { unfold fstat_input_len in Hst. destruct (fstat_st_size E);
      inversion Hst; subst; cbn; intuition discriminate. }
  repeat break_if; cbn [fst]; rewrite <- app_assoc; cbn [app];
    eexists; (split; [reflexivity |]); intros c err Hin;
    apply in_app_or in Hin as [Hin | Hin];
    try (eapply Hs; eassumption); cbn in Hin; intuition discriminate.
Qed.

(** Every call of [ubigen_create] in a run follows a successful
    [parse_opt] and is made with the [args] it left. *)
Lemma main_create_event opts c err :
  In (ev_ubigen_create c err) (fst (main E opts)) ->
  exists evs a,
    parse_opt E args opts = (evs, returns (0, a)) /\
    c = create_call a (snd (fstat_input_len E)).
Proof.
  destruct (parse_opt E args opts) as [evs r] eqn:Hp.
  pose proof (parse_opt_spec _ _ _ _ Hp) as [Hev Hr].
  assert (Hno : ~ In (ev_ubigen_create c err) evs).
  { intros Hin. unfold no_session in Hev. rewrite Forall_forall in Hev.
    apply Hev in Hin. discriminate. }
  destruct r as [[rc a] | status].
  - destruct Hr as [[-> | ->] _].
    + rewrite (main_parse_ok _ _ _ Hp). cbn [fst].
      destruct (run_session_events a) as (tail & -> & Htail).
      intros [Hin | Hin]; [discriminate |].
      apply in_app_or in Hin as [Hin | Hin]; [contradiction |].
      apply in_app_or in Hin as [Hin | [Hin | Hin]].
      * exfalso. eapply Htail. apply in_or_app. left; eassumption.
      * inversion Hin; subst. eauto.
      * exfalso. eapply Htail. apply in_or_app. right; eassumption.
    + rewrite (main_parse_failed _ _ _ Hp). cbn.
      intros [Hin | Hin]; [discriminate | contradiction].
  - rewrite (main_parse_exited _ _ _ Hp). cbn.
    intros [Hin | Hin]; [discriminate | contradiction].
Qed.

(** A refused option anywhere on the command line: no session is
    constructed, whichever way the program ends. *)
Lemma refused_no_session key optarg pre post :
  refused E key optarg ->
  no_session (fst (main E (pre ++ (key, optarg) :: post))) /\
  (snd (main E (pre ++ (key, optarg) :: post)) = returns (-1) \/
   snd (main E (pre ++ (key, optarg) :: post)) = exits EXIT_SUCCESS).
Proof.
  intros Hre.
  destruct (parse_opt_refused key optarg post Hre pre args)
    as (evs & Hev & [[_ [a' H]] | [H _]]).
  - rewrite (main_parse_failed _ _ _ H). cbn.
    split; [constructor; [reflexivity | assumption] | left; reflexivity].
  - rewrite (main_parse_exited _ _ _ H). cbn.
    split; [constructor; [reflexivity | assumption] | right; reflexivity].
Qed.

Lemma refused_fails key optarg pre post :
  refused E key optarg -> no_help_or_version pre ->
  (exists evs a, parse_opt E args (pre ++ (key, optarg) :: post)
                 = (evs, returns (-1, a)) /\ reports evs) /\
  snd (main E (pre ++ (key, optarg) :: post)) = returns (-1) /\
  no_session (fst (main E (pre ++ (key, optarg) :: post))).
Proof.
  intros Hre Hpre.
  destruct (parse_opt_refused key optarg post Hre pre args)
    as (evs & Hev & [[Hrep [a' H]] | [_ Hn]]); [| contradiction].
  rewrite (main_parse_failed _ _ _ H). cbn.
  repeat split; eauto. constructor; [reflexivity | assumption].
Qed.

Lemma parse_opt_success opts evs a :
  parse_opt E args opts = (evs, returns (0, a)) ->
  sub_page_size a = min_io_size a /\ 0 <= min_io_size a /\
  alignment a = 1 /\ (~ supplied "x" opts -> ubi_ver a = 0).
Proof.
  intros H. apply parse_opt_spec in H as [_ [_ H]].
  destruct (H eq_refl) as (H1 & H2 & H3 & H4). cbn in *.
  repeat split; auto. apply H3; lia.
Qed.

Lemma switch_key_events a key optarg evs r :
  switch_key E a key optarg = (evs, r) ->
  Forall (fun e => opens_or_reports e = true) evs.
Proof.
  unfold switch_key, parse_size, parse_num, strtoul.
  destruct (strtoull optarg) as [v endp].
  repeat break_if; try destruct endp; repeat break_if;
    intros H; break_pair; repeat constructor.
Qed.

Lemma after_loop_events a evs r :
  after_loop a = (evs, r) ->
  Forall (fun e => opens_or_reports e = true) evs.
Proof.
  unfold after_loop. destruct (fp_in a); repeat break_if;
    intros H; break_pair; repeat constructor.
Qed.

(** [parse_opt] only opens files and prints messages. *)
Lemma parse_opt_events opts : forall a evs r,
  parse_opt E a opts = (evs, r) ->
  Forall (fun e => opens_or_reports e = true) evs.
Proof.
  induction opts as [| [key optarg] rest IH]; intros a evs r; cbn [parse_opt].
  - apply after_loop_events.
  - destruct (switch_key E a key optarg) as [evs1 sw] eqn:Hsw.
    apply switch_key_events in Hsw.
    destruct sw as [a1 | rc a1 | status].
    + destruct (parse_opt E a1 rest) as [evs2 r2] eqn:Hrest.
      intros H; break_pair. apply Forall_app. split; [assumption |].
      eapply IH; eassumption.
    + intros H; break_pair. assumption.
    + intros H; break_pair. assumption.
Qed.

(** C6 (amended): when the argument of [-b] or [-m] does not begin with a
    number, or begins with a number that is zero or negative once read
    into the [int] field (the check the [switch] makes before any unit
    multiplier is applied), and no [-h] or [-V] comes earlier on the
    command line, [parse_opt] reports an error and returns -1 and [main]
    returns -1; the run consists of [ubigen_init], the [fopen] calls of
    earlier options and messages on [stderr] only, so that no session is
    constructed and nothing is written. *)
Theorem bad_size_fails_before_session pre key optarg post :
  key = "b"%char \/ key = "m"%char ->
  not_positive_size optarg = true ->
  no_help_or_version pre ->
  exists evs a,
    parse_opt E args (pre ++ (key, optarg) :: post) = (evs, returns (-1, a)) /\
    reports evs /\
    Forall (fun e => opens_or_reports e = true) evs /\
    main E (pre ++ (key, optarg) :: post) = (ev_ubigen_init :: evs, returns (-1)) /\
    no_session (fst (main E (pre ++ (key, optarg) :: post))).
Proof.
  intros Hkey Hbad Hpre.
  destruct (refused_fails key optarg pre post
              (refused_bad_size key optarg Hkey Hbad) Hpre)
    as ((evs & a & Hp & Hrep) & _ & Hns).
  exists evs, a. split; [exact Hp |]. split; [exact Hrep |].
  split; [eapply parse_opt_events; exact Hp |].
  split; [exact (main_parse_failed _ _ _ Hp) | exact Hns].
Qed.

(** C7: after every successful [parse_opt] the sub-page size in [args]
    equals the minimum I/O unit size (no option ever supplies another
    value), so that it is at most the minimum I/O unit size in every
    session that is constructed. *)
Theorem sub_page_size_is_min_io_size opts evs a :
  parse_opt E args opts = (evs, returns (0, a)) ->
  sub_page_size a = min_io_size a /\ sub_page_size a <= min_io_size a.
Proof.
  intros H. apply parse_opt_success in H as (H1 & _).
  split; [assumption | lia].
Qed.

(** C8 (amended): [-s] and [-a] are in the option table and in the
    option string, but the [switch] has no case for them: supplied with
    no [-h] or [-V] earlier on the command line they make [parse_opt]
    report and return -1 and [main] return -1 before a session is
    constructed; and every session runs with the sub-page size equal to
    the minimum I/O unit size and with alignment 1. *)
Theorem sub_page_size_and_alignment_options_are_refused :
  (In ("sub-page-size"%string, true, "s"%char) long_options /\
   In ("alignment"%string, true, "a"%char) long_options /\
   optstring = "i:o:b:I:m:t:s:a:O:e:x:hV"%string) /\
  (forall pre key optarg post,
      key = "s"%char \/ key = "a"%char ->
      no_help_or_version pre ->
      (exists evs a, parse_opt E args (pre ++ (key, optarg) :: post)
                     = (evs, returns (-1, a)) /\ reports evs) /\
      snd (main E (pre ++ (key, optarg) :: post)) = returns (-1) /\
      no_session (fst (main E (pre ++ (key, optarg) :: post)))) /\
  (forall opts evs a,
      parse_opt E args opts = (evs, returns (0, a)) ->
      sub_page_size a = min_io_size a /\ alignment a = 1 /\
      forall c err, In (ev_ubigen_create c err) (fst (main E opts)) ->
                    c_alignment c = 1).
Proof.
  split; [| split].
  - cbn. intuition.
  - intros pre key optarg post Hkey Hpre.
    apply refused_fails; [apply refused_unhandled |]; assumption.
  - intros opts evs a H.
    pose proof (parse_opt_success _ _ _ H) as (H1 & _ & H2 & _).
    split; [assumption |]. split; [assumption |].
    intros c err Hin.
    apply main_create_event in Hin as (evs' & a' & H' & ->).
    rewrite H in H'. inversion H'; subst. exact H2.
Qed.

(** C9: when [fstat] on the input file fails after a successful
    [parse_opt], [main] prints its warning and goes on: the next thing
    it does is to call [ubigen_create], with the [st_size] that the
    unfilled [file_info] holds as the input length. *)
Theorem fstat_failure_is_only_warned opts evs a :
  parse_opt E args opts = (evs, returns (0, a)) ->
  fstat_st_size E = None ->
  exists c tail,
    fst (main E opts)
    = ev_ubigen_init :: evs
        ++ [ev_fstat false; ev_stderr cannot_fetch_file_size;
            ev_ubigen_create c (ubigen_create_err E c)] ++ tail /\
    c = create_call a (file_info_initial_st_size E) /\
    c_data_size c = file_info_initial_st_size E.
Proof.
  intros Hp Hst. rewrite (main_parse_ok _ _ _ Hp). cbn [fst].
  destruct (run_session_events a) as (tail & Hrun & _).
  rewrite Hrun. unfold fstat_input_len. rewrite Hst. cbn [fst snd app].
  exists (create_call a (file_info_initial_st_size E)), tail.
  repeat split.
Qed.

(** C10: when [-x] is not supplied, every call of [ubigen_create] is
    made with UBI version 0, the initial value of [args.ubi_ver]; a
    successful [parse_opt] is followed by such a call; and the help text
    gives 1 as the default of [-x]. *)
Theorem ubi_ver_defaults_to_zero opts :
  ~ supplied "x" opts ->
  (forall c err, In (ev_ubigen_create c err) (fst (main E opts)) ->
                 c_version c = 0) /\
  (forall evs a, parse_opt E args opts = (evs, returns (0, a)) ->
                 exists c err, In (ev_ubigen_create c err) (fst (main E opts))) /\
  ubi_ver args = 0 /\
  (nth_error optionsstr 21
   = Some "-x, --ubi-ver=<num>            UBI version number to put to EC headers"%string /\
   nth_error optionsstr 22
   = Some "                              (default is 1)"%string).
Proof.
  intros Hx. split; [| split; [| split; [reflexivity | split; reflexivity]]].
  - intros c err Hin.
    apply main_create_event in Hin as (evs & a & Hp & ->).
    apply parse_opt_success in Hp as (_ & _ & _ & Hv). cbn. auto.
  - intros evs a Hp. rewrite (main_parse_ok _ _ _ Hp). cbn [fst].
    destruct (run_session_events a) as (tail & -> & _).
    do 2 eexists. right. apply in_or_app. right.
    apply in_or_app. right. left. reflexivity.
Qed.

End FrontEnd.

(** The run [ubigen -i in.bin -o out.img -b 0 -I 5 -m 2048]: the two
    files are opened, then the size is turned down. *)
Lemma bad_size_fails_before_session_witness :
  exists evs a,
    Ubigen.parse_opt Samples.env_ok Ubigen.args Samples.opts_bad_peb
    = (evs, Ubigen.returns (-1, a)) /\
    reports evs /\
    Forall (fun e => opens_or_reports e = true) evs /\
    Ubigen.main Samples.env_ok Samples.opts_bad_peb
    = (Ubigen.ev_ubigen_init :: evs, Ubigen.returns (-1)) /\
    no_session (fst (Ubigen.main Samples.env_ok Samples.opts_bad_peb)).
Proof.
  apply (bad_size_fails_before_session Samples.env_ok
           [("i"%char, "in.bin"%string); ("o"%char, "out.img"%string)]
           "b"%char "0"%string
           [("I"%char, "5"%string); ("m"%char, "2048"%string)]).
  - left; reflexivity.
  - vm_compute; reflexivity.
  - repeat constructor.
Defined.

(** A size that is negative as written can still be read as positive:
    [strtoull] negates in 64 bits and the conversion to [int] keeps the
    low 32 bits, so [-b -4294967295] stores 1 and the session is
    constructed with a physical eraseblock of one byte. *)
Example wrapped_size_is_accepted :
  not_positive_size "-4294967295" = false /\
  exists c,
    In (Ubigen.ev_ubigen_create c 0)
       (fst (Ubigen.main Samples.env_ok Samples.opts_wrapped_peb)) /\
    Ubigen.c_eb_size c = 1.
Proof.
  split; [vm_compute; reflexivity |].
  eexists. split; [vm_compute; do 3 right; left; reflexivity | reflexivity].
Qed.

(** A size that is positive as read can still end as zero: with the
    multiplier 2^30 of [GiB] the product of [-b 4GiB] is 2^32, the [int]
    field is left with 0, the check after the loop only refuses negative
    sizes, and the session is constructed with a physical eraseblock of
    no bytes. *)
Example overflowing_size_is_stored_as_zero :
  not_positive_size "4GiB" = false /\
  exists c,
    In (Ubigen.ev_ubigen_create c 0)
       (fst (Ubigen.main Samples.env_ok
               [("i"%char, "in.bin"%string); ("b"%char, "4GiB"%string);
                ("I"%char, "5"%string); ("m"%char, "2048"%string)])) /\
    Ubigen.c_eb_size c = 0.
Proof.
  split; [vm_compute; reflexivity |].
  eexists. split; [vm_compute; do 3 right; left; reflexivity | reflexivity].
Qed.

(** C6, counterexample: [ubigen -h -b 0] supplies a physical eraseblock
    size that is not a positive integer, yet the parser does not return a
    failure: the help text is printed and the program ends with
    [EXIT_SUCCESS]. *)
Lemma bad_size_after_help_exits_successfully :
  In ("b"%char, "0"%string) Samples.opts_help_bad_peb /\
  not_positive_size "0" = true /\
  Ubigen.parse_opt Samples.env_ok Ubigen.args Samples.opts_help_bad_peb
  = ([Ubigen.ev_stderr Ubigen.help_text], Ubigen.exits Ubigen.EXIT_SUCCESS) /\
  Ubigen.main Samples.env_ok Samples.opts_help_bad_peb
  = ([Ubigen.ev_ubigen_init; Ubigen.ev_stderr Ubigen.help_text],
     Ubigen.exits Ubigen.EXIT_SUCCESS) /\
  ~ (exists evs a,
        Ubigen.parse_opt Samples.env_ok Ubigen.args Samples.opts_help_bad_peb
        = (evs, Ubigen.returns (-1, a))).
Proof.
  split; [right; left; reflexivity |].
  split; [vm_compute; reflexivity |].
  split; [reflexivity |].
  split; [reflexivity |].
  intros (evs & a & H). vm_compute in H. discriminate.
Qed.

(** The run [ubigen -i in.bin -o out.img -b 64KiB -I 5 -m 2048]. *)
Lemma sub_page_size_is_min_io_size_witness :
  exists a,
    snd (Ubigen.parse_opt Samples.env_ok Ubigen.args Samples.opts_plain)
    = Ubigen.returns (0, a) /\
    Ubigen.sub_page_size a = 2048 /\
    Ubigen.sub_page_size a = Ubigen.min_io_size a /\
    Ubigen.sub_page_size a <= Ubigen.min_io_size a.
Proof.
  eexists. split; [vm_compute; reflexivity |].
  split; [reflexivity |].
  eapply (sub_page_size_is_min_io_size Samples.env_ok Samples.opts_plain).
  vm_compute; reflexivity.
Defined.

(** The runs [ubigen -i in.bin -b 64KiB -I 5 -m 2048 -s 512] and
    [ubigen -i in.bin -o out.img -b 64KiB -I 5 -m 2048]. *)
Lemma sub_page_size_and_alignment_options_are_refused_witness :
  snd (Ubigen.main Samples.env_ok Samples.opts_sub_page) = Ubigen.returns (-1) /\
  no_session (fst (Ubigen.main Samples.env_ok Samples.opts_sub_page)) /\
  exists a,
    snd (Ubigen.parse_opt Samples.env_ok Ubigen.args Samples.opts_plain)
    = Ubigen.returns (0, a) /\
    Ubigen.sub_page_size a = Ubigen.min_io_size a /\ Ubigen.alignment a = 1.
Proof.
  destruct (sub_page_size_and_alignment_options_are_refused Samples.env_ok)
    as (_ & Hrefused & Hsession).
  split; [| split].
  - apply (Hrefused
             [("i"%char, "in.bin"%string); ("b"%char, "64KiB"%string);
              ("I"%char, "5"%string); ("m"%char, "2048"%string)]
             "s"%char "512"%string []);
      [left; reflexivity | repeat constructor].
  - apply (Hrefused
             [("i"%char, "in.bin"%string); ("b"%char, "64KiB"%string);
              ("I"%char, "5"%string); ("m"%char, "2048"%string)]
             "s"%char "512"%string []);
      [left; reflexivity | repeat constructor].
  - eexists. split; [vm_compute; reflexivity |].
    eapply proj1, and_assoc, (Hsession Samples.opts_plain).
    vm_compute; reflexivity.
Defined.

(** C8, counterexample: [ubigen -V -s 512] supplies [-s], yet option
    parsing does not fail: the version is printed and the program ends
    with [EXIT_SUCCESS]. *)
Lemma sub_page_size_after_version_exits_successfully :
  supplied "s" Samples.opts_version_sub_page /\
  Ubigen.parse_opt Samples.env_ok Ubigen.args Samples.opts_version_sub_page
  = ([Ubigen.ev_stderr Ubigen.program_version],
     Ubigen.exits Ubigen.EXIT_SUCCESS) /\
  Ubigen.main Samples.env_ok Samples.opts_version_sub_page
  = ([Ubigen.ev_ubigen_init; Ubigen.ev_stderr Ubigen.program_version],
     Ubigen.exits Ubigen.EXIT_SUCCESS) /\
  snd (Ubigen.main Samples.env_ok Samples.opts_version_sub_page)
  <> Ubigen.returns (-1).
Proof.
  split; [exists "512"%string; right; left; reflexivity |].
  split; [reflexivity |].
  split; [reflexivity |].
  vm_compute. discriminate.
Qed.

(** The run [ubigen -i in.bin -o out.img -b 64KiB -I 5 -m 2048] with a
    failing [fstat]. *)
Lemma fstat_failure_is_only_warned_witness :
  exists evs c tail,
    fst (Ubigen.main Samples.env_fstat_fails Samples.opts_plain)
    = Ubigen.ev_ubigen_init :: evs
        ++ [Ubigen.ev_fstat false;
            Ubigen.ev_stderr Ubigen.cannot_fetch_file_size;
            Ubigen.ev_ubigen_create
              c (Ubigen.ubigen_create_err Samples.env_fstat_fails c)] ++ tail /\
    Ubigen.c_data_size c = 0x5eed.
Proof.
  destruct (fstat_failure_is_only_warned Samples.env_fstat_fails
              Samples.opts_plain
              (fst (Ubigen.parse_opt Samples.env_fstat_fails Ubigen.args
                                     Samples.opts_plain))
              (Ubigen.mk_args (Some (Ubigen.opened "in.bin" "rb"))
                              (Some (Ubigen.opened "out.img" "wb"))
                              65536 5 2048 Ubigen.UBI_VID_DYNAMIC
                              2048 1 0 0 0))
    as (c & tail & Hmain & _ & Hsize).
  - vm_compute; reflexivity.
  - reflexivity.
  - exists (fst (Ubigen.parse_opt Samples.env_fstat_fails Ubigen.args
                                  Samples.opts_plain)), c, tail.
    split; [exact Hmain | exact Hsize].
Defined.

(** The run [ubigen -i in.bin -o out.img -b 64KiB -I 5 -m 2048]. *)
Lemma ubi_ver_defaults_to_zero_witness :
  (forall c err,
      In (Ubigen.ev_ubigen_create c err)
         (fst (Ubigen.main Samples.env_ok Samples.opts_plain)) ->
      Ubigen.c_version c = 0) /\
  exists c err,
    In (Ubigen.ev_ubigen_create c err)
       (fst (Ubigen.main Samples.env_ok Samples.opts_plain)).
Proof.
  assert (Hx : ~ supplied "x" Samples.opts_plain).
  { intros [o Ho]. cbn in Ho. intuition discriminate. }
  destruct (ubi_ver_defaults_to_zero Samples.env_ok Samples.opts_plain Hx)
    as (Hzero & Hcall & _).
  split; [exact Hzero |].
  eapply Hcall. vm_compute; reflexivity.
Defined.

(* ================================================================= *)
(** ** The option loop, case by case *)

Section OptionLoop.
Import Ubigen.
Variable E : env.

Lemma to_int_range z : int_range (to_int z).
Proof.
  unfold int_range, to_int.
  pose proof (Z.mod_pos_bound (z + 2 ^ 31) (2 ^ 32) ltac:(lia)). lia.
Qed.

Lemma key_field_key f : key_field (field_key f) = Some f.
Proof. destruct f; reflexivity. Qed.

Lemma key_field_inv key f : key_field key = Some f -> key = field_key f.
Proof.
  unfold key_field.
  repeat match goal with
         | |- context [if Ascii.eqb key ?c then _ else _] =>
             let H := fresh "K" in
             destruct (Ascii.eqb key c) eqn:H;
             [ apply Ascii.eqb_eq in H; subst key | ]
         end;
    intros H; inversion H; reflexivity.
Qed.

(** The [-b] and [-m] cases in terms of the value they store. *)
Lemma parse_size_value optarg bad set evs r :
  parse_size E optarg bad set = (evs, r) ->
  match size_value E optarg with
  | Some v => evs = [] /\ r = sw_break (set v)
  | None =>
      (exists v, r = sw_return (-1) (set v)) /\
      evs = [ev_stderr (if not_positive_size optarg then bad optarg
                        else bad_size_specifier (snd (strtoull optarg)))]
  end.
Proof.
  unfold parse_size, size_value, not_positive_size.
  destruct (strtoull optarg) as [v endp]. cbn [snd].
  destruct (String.eqb endp optarg || (to_int v <=? 0))%bool.
  - intros H; break_pair. eauto.
  - destruct endp.
    + intros H; break_pair. auto.
    + destruct (ubiutils_get_multiplier E _ =? -1); intros H; break_pair; eauto.
Qed.

Lemma parse_num_value optarg bad set evs r :
  parse_num optarg bad set = (evs, r) ->
  match num_value optarg with
  | Some v => evs = [] /\ r = sw_break (set v)
  | None =>
      (exists v, r = sw_return (-1) (set v)) /\ evs = [ev_stderr (bad optarg)]
  end.
Proof.
  unfold parse_num, num_value. destruct (strtoul optarg) as [v endp].
  destruct (String.eqb endp optarg || (to_int v <? 0))%bool;
    intros H; break_pair; eauto.
Qed.

(** The outcome of one pass through the [switch], by key and argument:
    the loop goes on exactly for an accepted option, which assigns the
    field of its key and no other. *)
Lemma switch_key_cases a key optarg evs r :
  switch_key E a key optarg = (evs, r) ->
  match r with
  | sw_break a' =>
      accepted E (key, optarg) = true /\
      (forall f, Some (get_field f a')
                 = if Ascii.eqb key (field_key f) then option_value E f optarg
                   else Some (get_field f a)) /\
      sub_page_size a' = sub_page_size a /\ alignment a' = alignment a /\
      evs = match key_field key with
            | Some F_fp_in => [ev_fopen optarg "rb" true]
            | Some F_fp_out => [ev_fopen optarg "wb" true]
            | _ => []
            end
  | sw_return rc a' =>
      rc = -1 /\ help_or_version key = false /\ rejected E key optarg = true /\
      exists evs0, evs = evs0 ++ [ev_stderr (rejection_message E key optarg)] /\
                   Forall (fun e => match e with
                                    | ev_fopen _ _ false => True
                                    | _ => False
                                    end) evs0
  | sw_exit status =>
      status = EXIT_SUCCESS /\ help_or_version key = true /\
      evs = [ev_stderr (if Ascii.eqb key "h" then help_text else program_version)]
  end.
Proof.
  unfold switch_key, is_key.
  repeat match goal with
         | |- context [if Ascii.eqb key ?c then _ else _] =>
             let H := fresh "K" in
             destruct (Ascii.eqb key c) eqn:H;
             [ apply Ascii.eqb_eq in H; subst key | ]
         end.
  all: try (intros H;
            first [ apply parse_size_value in H;
                    destruct (size_value E optarg) as [sv |] eqn:Hv
                  | apply parse_num_value in H;
                    destruct (num_value optarg) as [nv |] eqn:Hv ];
            [ destruct H as [-> ->] | destruct H as [[v ->] ->] ]).
  all: try (destruct (fopen_ok E optarg _) eqn:Hf; intros H; break_pair).
  all: try (unfold type_value in *;
            destruct (String.eqb optarg "dynamic") eqn:Hd;
            [| destruct (String.eqb optarg "static") eqn:Hs];
            intros H; break_pair).
  all: try (intros H; break_pair).
  all: unfold accepted, rejected, rejection_message, key_field, help_or_version;
    cbn [fst snd Ascii.eqb Bool.eqb orb andb negb option_value option_map];
    repeat match goal with K : Ascii.eqb _ _ = false |- _ => rewrite K end;
    unfold type_value;
    rewrite ?Hv, ?Hf, ?Hd, ?Hs; cbn [orb andb negb option_map].
  all: try (split; [reflexivity |]; split;
            [ intros f; destruct f; cbn; unfold type_value;
              rewrite ?Hv, ?Hf, ?Hd, ?Hs; reflexivity
            | repeat split ]; fail).
  all: try (split; [reflexivity |]; split; [reflexivity |];
            split; [reflexivity |];
            first [ exists []; split; [reflexivity | constructor]
                  | eexists [_]; split; [reflexivity | repeat constructor] ]; fail).
  all: try (repeat split; fail).
Qed.

Lemma switch_key_accepted a key optarg :
  accepted E (key, optarg) = true ->
  exists evs a', switch_key E a key optarg = (evs, sw_break a').
Proof.
  intros Hacc. destruct (switch_key E a key optarg) as [evs r] eqn:Hsw.
  pose proof (switch_key_cases _ _ _ _ _ Hsw) as Hc.
  unfold accepted in Hacc. cbn [fst snd] in Hacc.
  apply andb_prop in Hacc as [Hh Hr].
  destruct r as [a' | rc a' | status]; [eauto | |].
  - destruct Hc as (_ & _ & Hrej & _). rewrite Hrej in Hr. discriminate.
  - destruct Hc as (_ & Hhv & _). rewrite Hhv in Hh. discriminate.
Qed.

Lemma switch_key_not_accepted a key optarg evs r :
  accepted E (key, optarg) = false ->
  switch_key E a key optarg = (evs, r) ->
  forall a', r <> sw_break a'.
Proof.
  intros Hacc Hsw a' ->. apply switch_key_cases in Hsw as [Hacc' _]. congruence.
Qed.

(** [parse_opt] is the option loop followed by the checks after it. *)
Lemma parse_opt_loop opts : forall a,
  parse_opt E a opts
  = match option_loop E a opts with
    | (evs, sw_break a') =>
        let '(evs', r) := after_loop a' in (evs ++ evs', r)
    | (evs, sw_return rc a') => (evs, returns (rc, a'))
    | (evs, sw_exit status) => (evs, exits status)
    end.
Proof.
  induction opts as [| [key optarg] rest IH]; intros a; cbn [parse_opt option_loop].
  - destruct (after_loop a); reflexivity.
  - destruct (switch_key E a key optarg) as [evs [a1 | rc a1 | status]];
      [| reflexivity | reflexivity].
    rewrite IH. destruct (option_loop E a1 rest) as [evs1 [a2 | rc a2 | status]];
      [| reflexivity | reflexivity].
    destruct (after_loop a2). rewrite app_assoc. reflexivity.
Qed.

Lemma option_loop_app pre post : forall a,
  option_loop E a (pre ++ post)
  = match option_loop E a pre with
    | (evs, sw_break a1) =>
        let '(evs', r) := option_loop E a1 post in (evs ++ evs', r)
    | other => other
    end.
Proof.
  induction pre as [| [key optarg] pre IH]; intros a; cbn [app option_loop].
  - destruct (option_loop E a post); reflexivity.
  - destruct (switch_key E a key optarg) as [evs [a1 | rc a1 | status]];
      [| reflexivity | reflexivity].
    rewrite IH. destruct (option_loop E a1 pre) as [evs1 [a2 | rc a2 | status]];
      [| reflexivity | reflexivity].
    destruct (option_loop E a2 post). rewrite app_assoc. reflexivity.
Qed.

Lemma supplied_cons key k o opts :
  supplied key ((k, o) :: opts) <-> k = key \/ supplied key opts.
Proof.
  unfold supplied. split.
  - intros [optarg [H | H]]; [inversion H; auto | eauto].
  - intros [-> | [optarg H]]; [exists o; left; reflexivity |].
    exists optarg; right; assumption.
Qed.

Lemma supplied_dec key opts : {supplied key opts} + {~ supplied key opts}.
Proof.
  induction opts as [| [k o] opts IH].
  - right. intros [optarg []].
  - destruct (ascii_dec k key) as [-> | Hne].
    + left. exists o. left; reflexivity.
    + destruct IH as [Hs | Hn].
      * left. apply supplied_cons. auto.
      * right. intros H. apply supplied_cons in H as [H | H]; auto.
Qed.

(** The last occurrence of a supplied option. *)
Lemma supplied_last key opts :
  supplied key opts ->
  exists pre optarg post,
    opts = pre ++ (key, optarg) :: post /\ ~ supplied key post.
Proof.
  induction opts as [| [k o] opts IH]; intros Hs.
  - destruct Hs as [optarg []].
  - destruct (supplied_dec key opts) as [Hin | Hnot].
    + destruct (IH Hin) as (pre & optarg & post & -> & Hpost).
      exists ((k, o) :: pre), optarg, post. split; [reflexivity | assumption].
    + apply supplied_cons in Hs as [-> | Hs]; [| contradiction].
      exists [], o, opts. split; [reflexivity | assumption].
Qed.

(** A loop that runs to its end: every option was accepted, the events
    are the files opened, in order, and an option that was not supplied
    has left its field alone. *)
Lemma option_loop_break opts : forall a evs a',
  option_loop E a opts = (evs, sw_break a') ->
  Forall (fun o => accepted E o = true) opts /\
  evs = fopen_events opts /\
  sub_page_size a' = sub_page_size a /\ alignment a' = alignment a /\
  forall f, ~ supplied (field_key f) opts -> get_field f a' = get_field f a.
Proof.
  induction opts as [| [key optarg] rest IH]; intros a evs a'; cbn [option_loop].
  - intros H; break_pair. repeat split; auto.
  - destruct (switch_key E a key optarg) as [evs1 sw] eqn:Hsw.
    apply switch_key_cases in Hsw.
    destruct sw as [a1 | rc a1 | status]; [| discriminate | discriminate].
    destruct (option_loop E a1 rest) as [evs2 r2] eqn:Hrest.
    intros H; break_pair.
    destruct Hsw as (Hacc & Hf & Hsub & Hal & ->).
    destruct (IH _ _ _ Hrest) as (Hall & -> & Hsub' & Hal' & Hframe).
    split; [constructor; assumption |].
    split; [reflexivity |].
    split; [congruence |]. split; [congruence |].
    intros f Hns. rewrite Hframe.
    + specialize (Hf f).
      destruct (Ascii.eqb key (field_key f)) eqn:Hk; [| congruence].
      apply Ascii.eqb_eq in Hk. exfalso. apply Hns. apply supplied_cons. auto.
    + intros Hs. apply Hns. apply supplied_cons. auto.
Qed.

Lemma option_loop_accepted opts :
  Forall (fun o => accepted E o = true) opts ->
  forall a, exists a', option_loop E a opts = (fopen_events opts, sw_break a').
Proof.
  induction 1 as [| [key optarg] rest Hacc _ IH]; intros a; cbn [option_loop].
  - eauto.
  - destruct (switch_key_accepted a key optarg Hacc) as (evs & a1 & Hsw).
    rewrite Hsw. destruct (IH a1) as (a' & Hrest). rewrite Hrest.
    apply switch_key_cases in Hsw as (_ & _ & _ & _ & ->). eauto.
Qed.

(** When an option is repeated, its last occurrence decides. *)
Lemma option_loop_last f pre optarg post a evs a' :
  option_loop E a (pre ++ (field_key f, optarg) :: post) = (evs, sw_break a') ->
  ~ supplied (field_key f) post ->
  option_value E f optarg = Some (get_field f a').
Proof.
  rewrite option_loop_app.
  destruct (option_loop E a pre) as [evs1 [a1 | rc a1 | status]];
    [| discriminate | discriminate].
  cbn [option_loop].
  destruct (switch_key E a1 (field_key f) optarg) as [evs2 sw] eqn:Hsw.
  apply switch_key_cases in Hsw.
  destruct sw as [a2 | rc a2 | status]; [| discriminate | discriminate].
  destruct (option_loop E a2 post) as [evs3 r3] eqn:Hpost.
  intros H Hns; break_pair.
  destruct Hsw as (_ & Hf & _).
  apply option_loop_break in Hpost as (_ & _ & _ & _ & Hframe).
  rewrite (Hframe f Hns). specialize (Hf f).
  rewrite Ascii.eqb_refl in Hf. congruence.
Qed.

(** A loop that ends inside the [switch] ends at its first option that
    is not accepted. *)
Lemma option_loop_stops pre key optarg post : forall a,
  Forall (fun o => accepted E o = true) pre ->
  accepted E (key, optarg) = false ->
  exists evs r,
    option_loop E a (pre ++ (key, optarg) :: post) = (fopen_events pre ++ evs, r) /\
    match r with
    | sw_break _ => False
    | sw_return rc _ =>
        rc = -1 /\ rejected E key optarg = true /\
        exists evs0, evs = evs0 ++ [ev_stderr (rejection_message E key optarg)] /\
                     no_session evs0
    | sw_exit status =>
        status = EXIT_SUCCESS /\ help_or_version key = true /\
        evs = [ev_stderr (if Ascii.eqb key "h" then help_text else program_version)]
    end.
Proof.
  intros a Hpre Hna. rewrite option_loop_app.
  destruct (option_loop_accepted pre Hpre a) as (a1 & ->). cbn [option_loop].
  destruct (switch_key E a1 key optarg) as [evs sw] eqn:Hsw.
  pose proof (switch_key_not_accepted _ _ _ _ _ Hna Hsw) as Hnb.
  apply switch_key_cases in Hsw.
  destruct sw as [a2 | rc a2 | status].
  - exfalso. eapply Hnb. reflexivity.
  - exists evs, (sw_return rc a2). split; [reflexivity |].
    destruct Hsw as (-> & _ & Hrej & evs0 & -> & Hev0).
    repeat split; auto. exists evs0. split; [reflexivity |].
    eapply Forall_impl; [| exact Hev0].
    intros [] He; try contradiction. reflexivity.
  - exists evs, (sw_exit status). split; [reflexivity | assumption].
Qed.

End OptionLoop.

(* ================================================================= *)
(** ** [parse_opt] as a whole *)

Section ParseOpt.
Import Ubigen.
Variable E : env.

(** The checks after the loop: what they test, and what they change. *)
Lemma after_loop_cases a evs r :
  after_loop a = (evs, r) ->
  exists rc a',
    r = returns (rc, a') /\
    ((rc = 0 /\ evs = [] /\
      fp_in a <> None /\ 0 <= id a /\ 0 <= peb_size a /\ 0 <= min_io_size a /\
      (forall f, f <> F_fp_out -> get_field f a' = get_field f a) /\
      fp_out a' = match fp_out a with
                  | None => Some stdout
                  | Some s => Some s
                  end /\
      alignment a' = alignment a) \/
     (rc = -1 /\ (exists m, evs = [ev_stderr m]) /\
      (fp_in a = None \/ id a < 0 \/ peb_size a < 0 \/ min_io_size a < 0))).
Proof.
  unfold after_loop.
  destruct (fp_in a) eqn:Hin.
  2:{ intros H; break_pair. do 2 eexists. split; [reflexivity |]. right.
      split; [reflexivity |]. split; [eauto | auto]. }
  destruct (fp_out a) eqn:Hout; repeat break_if; intros H; break_pair;
    do 2 eexists; (split; [reflexivity |]); cbn in *;
    repeat match goal with
           | H : (_ <? _) = true |- _ => apply Z.ltb_lt in H
           | H : (_ <? _) = false |- _ => apply Z.ltb_ge in H
           end;
    try (right; split; [reflexivity |]; split; [eauto |]; lia).
  all: left; split; [reflexivity |]; split; [reflexivity |];
    split; [congruence |]; repeat (split; [lia |]);
    (split; [intros f' Hf; destruct f'; cbn; congruence |]);
    split; [congruence | reflexivity].
Qed.

Lemma option_loop_return_rc opts : forall a evs rc a',
  option_loop E a opts = (evs, sw_return rc a') -> rc = -1.
Proof.
  induction opts as [| [key optarg] rest IH]; intros a evs rc a'; cbn [option_loop].
  - discriminate.
  - destruct (switch_key E a key optarg) as [evs1 sw] eqn:Hsw.
    apply switch_key_cases in Hsw.
    destruct sw as [a2 | rc2 a2 | status].
    + destruct (option_loop E a2 rest) as [evs2 r2] eqn:Hrest.
      intros H; break_pair. eapply IH; eassumption.
    + intros H; break_pair. tauto.
    + discriminate.
Qed.

(** A successful [parse_opt]: the loop ran to its end and the checks
    after it passed. *)
Lemma parse_opt_ok_inv opts a0 evs a :
  parse_opt E a0 opts = (evs, returns (0, a)) ->
  exists a1,
    option_loop E a0 opts = (evs, sw_break a1) /\
    after_loop a1 = ([], returns (0, a)).
Proof.
  rewrite parse_opt_loop.
  destruct (option_loop E a0 opts) as [evs1 [a1 | rc a1 | status]] eqn:Hloop.
  - destruct (after_loop a1) as [evs2 r2] eqn:Hafter.
    intros H; break_pair.
    destruct (after_loop_cases _ _ _ Hafter)
      as (rc & a' & Hr & [(-> & -> & _) | (-> & _)]); inversion Hr; subst.
    exists a1. rewrite app_nil_r. auto.
  - intros H; break_pair. apply option_loop_return_rc in Hloop. discriminate.
  - discriminate.
Qed.

Lemma num_value_range optarg n : num_value optarg = Some n -> 0 <= n < 2 ^ 31.
Proof.
  unfold num_value. destruct (strtoul optarg) as [v endp].
  destruct (String.eqb endp optarg || (to_int v <? 0))%bool eqn:Hc; [discriminate |].
  intros H; inversion H; subst. apply orb_false_elim in Hc as [_ Hc].
  apply Z.ltb_ge in Hc. pose proof (to_int_range v) as Hr.
  unfold int_range in Hr. lia.
Qed.

Lemma size_value_range optarg v : size_value E optarg = Some v -> int_range v.
Proof.
  unfold size_value. destruct (strtoull optarg) as [x endp].
  destruct (String.eqb endp optarg || (to_int x <=? 0))%bool; [discriminate |].
  destruct endp; [| destruct (_ =? -1); [discriminate |]];
    intros H; inversion H; apply to_int_range.
Qed.

Lemma parse_opt_requires_mandatory opts evs a :
  parse_opt E args opts = (evs, returns (0, a)) ->
  mandatory_supplied opts.
Proof.
  intros Hp. apply parse_opt_ok_inv in Hp as (a1 & Hloop & Hafter).
  apply option_loop_break in Hloop as (_ & _ & _ & _ & Hframe).
  apply after_loop_cases in Hafter
    as (rc & a' & Hr & [(_ & _ & Hin & Hid & Hpeb & Hmin & _) | (-> & _)]);
    [| discriminate].
  unfold mandatory_supplied.
  repeat split;
    match goal with
    | |- supplied ?k opts =>
        destruct (supplied_dec k opts) as [Hs | Hn]; [exact Hs | exfalso]
    end.
  - specialize (Hframe F_fp_in Hn). cbn in Hframe. congruence.
  - specialize (Hframe F_id Hn). cbn in Hframe. inversion Hframe. lia.
  - specialize (Hframe F_peb_size Hn). cbn in Hframe. inversion Hframe. lia.
  - specialize (Hframe F_min_io_size Hn). cbn in Hframe. inversion Hframe. lia.
Qed.

(** X1: [parse_opt] succeeds only when the input file, the volume ID, the
    physical eraseblock size and the minimum I/O unit size were all
    supplied on the command line. *)
Theorem mandatory_options_are_required opts evs a :
  parse_opt E args opts = (evs, returns (0, a)) ->
  mandatory_supplied opts.
Proof. apply parse_opt_requires_mandatory. Qed.

Lemma option_value_mandatory f optarg v :
  option_value E f optarg = Some v ->
  size_in_range E (field_key f, optarg) = true ->
  match f, v with
  | F_fp_in, V_stream s => s <> None
  | (F_id | F_peb_size | F_min_io_size), V_int z => 0 <= z
  | (F_fp_in | F_id | F_peb_size | F_min_io_size), _ => False
  | _, _ => True
  end.
Proof.
  unfold size_in_range.
  destruct f; cbn; try (intros; exact I).
  - destruct (fopen_ok E optarg "rb"); intros H; inversion H; discriminate.
  - destruct (size_value E optarg); cbn; intros H; inversion H.
    intros Hr. apply Z.leb_le in Hr. assumption.
  - destruct (num_value optarg) eqn:Hn; cbn; intros H; inversion H.
    intros _. apply num_value_range in Hn. lia.
  - destruct (size_value E optarg); cbn; intros H; inversion H.
    intros Hr. apply Z.leb_le in Hr. assumption.
Qed.

(** X2: when every option is accepted by the [switch] and every size is
    still a non-negative [int] after its multiplier, [parse_opt] returns
    (it does not exit), it returns 0 or -1, and it returns 0 exactly when
    the four mandatory options were supplied; on success nothing is
    printed and the events are the files opened, in order. *)
Theorem accepted_options_succeed_iff_mandatory_supplied opts :
  Forall (fun o => accepted E o = true /\ size_in_range E o = true) opts ->
  exists evs rc a,
    parse_opt E args opts = (evs, returns (rc, a)) /\
    (rc = 0 \/ rc = -1) /\
    (rc = 0 <-> mandatory_supplied opts) /\
    (rc = 0 -> evs = fopen_events opts).
Proof.
  intros Hall.
  assert (Hacc : Forall (fun o => accepted E o = true) opts)
    by (eapply Forall_impl; [| exact Hall]; cbn; tauto).
  destruct (option_loop_accepted E opts Hacc args) as (a1 & Hloop).
  rewrite parse_opt_loop, Hloop.
  destruct (after_loop a1) as [evs2 r2] eqn:Hafter.
  apply after_loop_cases in Hafter as (rc & a' & -> & Hcases).
  exists (fopen_events opts ++ evs2), rc, a'. split; [reflexivity |].
  assert (Hlast : forall f, supplied (field_key f) opts ->
            exists optarg, option_value E f optarg = Some (get_field f a1) /\
                           size_in_range E (field_key f, optarg) = true).
  { intros f Hs. destruct (supplied_last _ _ Hs) as (pre & optarg & post & Heq & Hns).
    exists optarg. split.
    - eapply option_loop_last; [rewrite <- Heq; exact Hloop | exact Hns].
    - rewrite Forall_forall in Hall. apply Hall. rewrite Heq.
      apply in_or_app. right. left. reflexivity. }
  pose proof (option_loop_break _ _ _ _ _ Hloop) as (_ & _ & _ & _ & Hframe).
  destruct Hcases as [(-> & -> & Hin & Hid & Hpeb & Hmin & _) | (-> & _ & Hbad)].
  - split; [auto |]. split; [| intros _; apply app_nil_r].
    split; [intros _ | reflexivity].
    unfold mandatory_supplied.
    repeat split;
      match goal with
      | |- supplied ?k opts =>
          destruct (supplied_dec k opts) as [Hs | Hn]; [exact Hs | exfalso]
      end.
    + specialize (Hframe F_fp_in Hn). cbn in Hframe. congruence.
    + specialize (Hframe F_id Hn). cbn in Hframe. inversion Hframe. lia.
    + specialize (Hframe F_peb_size Hn). cbn in Hframe. inversion Hframe. lia.
    + specialize (Hframe F_min_io_size Hn). cbn in Hframe. inversion Hframe. lia.
  - split; [auto |]. split; [| discriminate].
    split; [discriminate |]. intros (Hi & HI & Hb & Hm). exfalso.
    destruct (Hlast F_fp_in Hi) as (o1 & H1 & R1).
    destruct (Hlast F_id HI) as (o2 & H2 & R2).
    destruct (Hlast F_peb_size Hb) as (o3 & H3 & R3).
    destruct (Hlast F_min_io_size Hm) as (o4 & H4 & R4).
    pose proof (option_value_mandatory _ _ _ H1 R1) as M1.
    pose proof (option_value_mandatory _ _ _ H2 R2) as M2.
    pose proof (option_value_mandatory _ _ _ H3 R3) as M3.
    pose proof (option_value_mandatory _ _ _ H4 R4) as M4.
    cbn in M1, M2, M3, M4.
    destruct Hbad as [Hbad | [Hbad | [Hbad | Hbad]]]; try lia. contradiction.
Qed.

(** X3: the first option that the [switch] turns down, after options
    that were all accepted, ends [parse_opt] with -1; its message is the
    last thing printed, after the files the earlier options opened; [main]
    returns -1 and no session is constructed. *)
Theorem rejected_option_is_reported pre key optarg post :
  Forall (fun o => accepted E o = true) pre ->
  rejected E key optarg = true ->
  (exists evs0 a,
      parse_opt E args (pre ++ (key, optarg) :: post)
      = (fopen_events pre ++ evs0
           ++ [ev_stderr (rejection_message E key optarg)],
         returns (-1, a)) /\
      no_session evs0) /\
  snd (main E (pre ++ (key, optarg) :: post)) = returns (-1) /\
  no_session (fst (main E (pre ++ (key, optarg) :: post))).
Proof.
  intros Hpre Hrej.
  assert (Hna : accepted E (key, optarg) = false).
  { unfold accepted. cbn [fst snd]. rewrite Hrej. apply andb_false_r. }
  destruct (option_loop_stops E pre key optarg post args Hpre Hna)
    as (evs & r & Hloop & Hr).
  assert (Hp : exists evs0 a,
             parse_opt E args (pre ++ (key, optarg) :: post)
             = (fopen_events pre ++ evs0
                  ++ [ev_stderr (rejection_message E key optarg)],
                returns (-1, a)) /\ no_session evs0).
  { rewrite parse_opt_loop, Hloop.
    destruct r as [a1 | rc a1 | status]; [contradiction | |].
    - destruct Hr as (-> & _ & evs0 & -> & Hev0). eauto.
    - destruct Hr as (_ & Hhv & _). unfold rejected in Hrej.
      rewrite Hhv in Hrej. discriminate. }
  split; [exact Hp |].
  destruct Hp as (evs0 & a & Hp & Hev0).
  rewrite (main_parse_failed _ _ _ _ Hp). cbn [fst snd].
  split; [reflexivity |].
  pose proof (parse_opt_spec _ _ _ _ _ Hp) as [Hns _].
  constructor; [reflexivity | exact Hns].
Qed.

Lemma option_loop_stop_ignores pre key optarg post :
  accepted E (key, optarg) = false ->
  forall a,
    option_loop E a (pre ++ (key, optarg) :: post)
    = option_loop E a (pre ++ [(key, optarg)]).
Proof.
  intros Hna a. rewrite !option_loop_app.
  destruct (option_loop E a pre) as [evs1 [a1 | rc a1 | status]]; try reflexivity.
  cbn [option_loop].
  destruct (switch_key E a1 key optarg) as [evs2 sw] eqn:Hsw.
  pose proof (switch_key_not_accepted _ _ _ _ _ _ Hna Hsw) as Hnb.
  destruct sw as [a2 | rc a2 | status]; try reflexivity.
  exfalso. eapply Hnb. reflexivity.
Qed.

(** X4: the loop stops at the first option that is not accepted (one
    that is turned down, or [-h] or [-V]): whatever follows it on the
    command line changes nothing in the run. *)
Theorem options_after_a_stop_are_ignored pre key optarg post :
  accepted E (key, optarg) = false ->
  main E (pre ++ (key, optarg) :: post) = main E (pre ++ [(key, optarg)]).
Proof.
  intros Hna. unfold main.
  rewrite !parse_opt_loop, (option_loop_stop_ignores pre key optarg post Hna).
  reflexivity.
Qed.

(** X5: [-h] or [-V] after options that were all accepted: the files
    named by those options have been opened (an output file is opened
    for writing) before the text is printed, and the run ends with
    [EXIT_SUCCESS] without any of the checks for mandatory options. *)
Theorem help_ends_the_run_after_earlier_options pre key optarg post :
  Forall (fun o => accepted E o = true) pre ->
  help_or_version key = true ->
  main E (pre ++ (key, optarg) :: post)
  = (ev_ubigen_init :: fopen_events pre
       ++ [ev_stderr (if Ascii.eqb key "h" then help_text else program_version)],
     exits EXIT_SUCCESS).
Proof.
  intros Hpre Hhv.
  assert (Hna : accepted E (key, optarg) = false).
  { unfold accepted. cbn [fst snd]. rewrite Hhv. reflexivity. }
  destruct (option_loop_stops E pre key optarg post args Hpre Hna)
    as (evs & r & Hloop & Hr).
  unfold main. rewrite parse_opt_loop, Hloop.
  destruct r as [a1 | rc a1 | status]; [contradiction | |].
  - destruct Hr as (_ & Hrej & _). unfold rejected in Hrej.
    rewrite Hhv in Hrej. discriminate.
  - destruct Hr as (-> & _ & ->). reflexivity.
Qed.

Lemma parse_opt_ok_field opts evs a :
  parse_opt E args opts = (evs, returns (0, a)) ->
  exists a1,
    option_loop E args opts = (evs, sw_break a1) /\
    (forall f, f <> F_fp_out -> get_field f a = get_field f a1) /\
    fp_out a = match fp_out a1 with
               | None => Some stdout
               | Some s => Some s
               end /\
    fp_in a1 <> None /\ 0 <= id a1 /\ 0 <= peb_size a1 /\ 0 <= min_io_size a1.
Proof.
  intros Hp. apply parse_opt_ok_inv in Hp as (a1 & Hloop & Hafter).
  exists a1. split; [assumption |].
  apply after_loop_cases in Hafter
    as (rc & a' & Hr & [(_ & _ & Hin & Hid & Hpeb & Hmin & Hf & Hout & _) | (-> & _)]);
    [| discriminate].
  inversion Hr; subst. auto 10.
Qed.

Lemma parse_opt_last_field f pre optarg post evs a :
  parse_opt E args (pre ++ (field_key f, optarg) :: post) = (evs, returns (0, a)) ->
  ~ supplied (field_key f) post ->
  option_value E f optarg = Some (get_field f a).
Proof.
  intros Hp Hns.
  apply parse_opt_ok_field in Hp as (a1 & Hloop & Hf & Hout & _).
  pose proof (option_loop_last E f pre optarg post _ _ _ Hloop Hns) as Hv.
  rewrite Hv. f_equal.
  destruct f; try (symmetry; apply Hf; discriminate).
  cbn in *. destruct (fopen_ok E optarg "wb"); [| discriminate].
  inversion Hv as [Hs]. rewrite Hout, <- Hs. reflexivity.
Qed.

(** X6: when an option is repeated, its last occurrence decides: after a
    successful [parse_opt] the field of the option holds what the [switch]
    stores for the argument of that occurrence. *)
Theorem last_occurrence_decides f pre optarg post evs a :
  parse_opt E args (pre ++ (field_key f, optarg) :: post) = (evs, returns (0, a)) ->
  ~ supplied (field_key f) post ->
  option_value E f optarg = Some (get_field f a).
Proof. apply parse_opt_last_field. Qed.

(** X7: after a successful [parse_opt], the options that were not
    supplied have their defaults: the output goes to [stdout], the volume
    is dynamic, and the erase counter, the VID header offset and the UBI
    version are 0. *)
Theorem unsupplied_options_have_defaults opts evs a :
  parse_opt E args opts = (evs, returns (0, a)) ->
  (~ supplied "o" opts -> fp_out a = Some stdout) /\
  (~ supplied "t" opts -> type a = UBI_VID_DYNAMIC) /\
  (~ supplied "e" opts -> ec a = 0) /\
  (~ supplied "O" opts -> vid_hdr_offs a = 0) /\
  (~ supplied "x" opts -> ubi_ver a = 0).
Proof.
  intros Hp.
  apply parse_opt_ok_field in Hp as (a1 & Hloop & Hf & Hout & _).
  apply option_loop_break in Hloop as (_ & _ & _ & _ & Hframe).
  repeat split; intros Hn.
  - specialize (Hframe F_fp_out Hn). cbn in Hframe. inversion Hframe as [H1].
    rewrite Hout, H1. reflexivity.
  - specialize (Hframe F_type Hn). specialize (Hf F_type ltac:(discriminate)).
    cbn in *. congruence.
  - specialize (Hframe F_ec Hn). specialize (Hf F_ec ltac:(discriminate)).
    cbn in *. congruence.
  - specialize (Hframe F_vid_hdr_offs Hn).
    specialize (Hf F_vid_hdr_offs ltac:(discriminate)). cbn in *. congruence.
  - specialize (Hframe F_ubi_ver Hn). specialize (Hf F_ubi_ver ltac:(discriminate)).
    cbn in *. congruence.
Qed.

End ParseOpt.

(* ================================================================= *)
(** ** [main] as a whole *)

Section Main.
Import Ubigen.
Variable E : env.

(** The three ways the session part of [main] can go. *)
Lemma run_session_cases a :
  let c := create_call a (snd (fstat_input_len E)) in
  let e1 := ubigen_create_err E c in
  let e2 := ubigen_write_complete_err E in
  let e3 := ubigen_destroy_err E in
  exists tail r,
    run_session E a = (fst (fstat_input_len E) ++ tail, r) /\
    no_session (fst (fstat_input_len E)) /\
    ((e1 <> 0 /\ r = returns (-1) /\
      tail = [ev_ubigen_create c e1; ev_stderr (cannot_create_handler e1)]) \/
     (e1 = 0 /\ e2 <> 0 /\ r = returns (-1) /\
      tail = [ev_ubigen_create c 0; ev_ubigen_write_complete e2;
              ev_stderr error_converting_input]) \/
     (e1 = 0 /\ e2 = 0 /\ r = returns e3 /\
      tail = [ev_ubigen_create c 0; ev_ubigen_write_complete 0;
              ev_ubigen_destroy e3])).
Proof.
  cbv zeta. unfold run_session.
  destruct (fstat_input_len E) as [stat_evs input_len] eqn:Hst. cbn [fst snd].
  assert (Hs : no_session stat_evs).
  { unfold fstat_input_len in Hst.
    destruct (fstat_st_size E); inversion Hst; repeat constructor. }
  destruct (Z.eqb_spec (ubigen_create_err E (create_call a input_len)) 0)
    as [H1 | H1]; cbn [negb].
  - destruct (Z.eqb_spec (ubigen_write_complete_err E) 0) as [H2 | H2]; cbn [negb];
      rewrite <- app_assoc; cbn [app]; do 2 eexists;
      (split; [reflexivity |]); (split; [exact Hs |]); rewrite ?H1, ?H2.
    + right; right. auto.
    + right; left. auto.
  - rewrite <- app_assoc; cbn [app]. do 2 eexists.
    split; [reflexivity |]. split; [exact Hs |]. left. auto.
Qed.

(** Every run of [main]: [parse_opt] exits, fails, or is followed by the
    session part. *)
Lemma main_cases opts :
  exists evs,
    no_session evs /\
    ((exists status,
         parse_opt E args opts = (evs, exits status) /\
         status = EXIT_SUCCESS /\ ~ no_help_or_version opts /\
         main E opts = (ev_ubigen_init :: evs, exits EXIT_SUCCESS)) \/
     (exists a,
         parse_opt E args opts = (evs, returns (-1, a)) /\
         main E opts = (ev_ubigen_init :: evs, returns (-1))) \/
     (exists a,
         parse_opt E args opts = (evs, returns (0, a)) /\
         main E opts = (ev_ubigen_init :: evs ++ fst (run_session E a),
                        snd (run_session E a)))).
Proof.
  destruct (parse_opt E args opts) as [evs r] eqn:Hp.
  pose proof (parse_opt_spec _ _ _ _ _ Hp) as [Hev Hr].
  exists evs. split; [assumption |].
  destruct r as [[rc a] | status].
  - destruct Hr as [[-> | ->] _].
    + right; right. exists a. split; [reflexivity |]. apply (main_parse_ok E _ _ _ Hp).
    + right; left. exists a. split; [reflexivity |]. apply (main_parse_failed E _ _ _ Hp).
  - destruct Hr as [-> Hn]. left. exists EXIT_SUCCESS.
    repeat split; auto. apply (main_parse_exited E _ _ _ Hp).
Qed.

Lemma in_session_event e evs tail :
  session_event e = true -> no_session evs ->
  In e (evs ++ tail) -> In e tail.
Proof.
  intros He Hns Hin. apply in_app_or in Hin as [Hin | Hin]; [| assumption].
  unfold no_session in Hns. rewrite Forall_forall in Hns.
  apply Hns in Hin. congruence.
Qed.

(** The session calls found in the events of a run, with the run
    reduced to the part where they can be. *)
Lemma main_session_events opts :
  exists tail,
    (forall e, session_event e = true ->
               In e (fst (main E opts)) <-> In e tail) /\
    (tail = [] /\ snd (main E opts) <> returns 0 /\
     (forall rc, snd (main E opts) = returns rc -> rc = -1) \/
     exists evs a c,
       parse_opt E args opts = (evs, returns (0, a)) /\
       c = create_call a (snd (fstat_input_len E)) /\
       let e1 := ubigen_create_err E c in
       let e2 := ubigen_write_complete_err E in
       let e3 := ubigen_destroy_err E in
       ((e1 <> 0 /\ snd (main E opts) = returns (-1) /\
         tail = [ev_ubigen_create c e1; ev_stderr (cannot_create_handler e1)]) \/
        (e1 = 0 /\ e2 <> 0 /\ snd (main E opts) = returns (-1) /\
         tail = [ev_ubigen_create c 0; ev_ubigen_write_complete e2;
                 ev_stderr error_converting_input]) \/
        (e1 = 0 /\ e2 = 0 /\ snd (main E opts) = returns e3 /\
         tail = [ev_ubigen_create c 0; ev_ubigen_write_complete 0;
                 ev_ubigen_destroy e3]))).
Proof.
  destruct (main_cases opts)
    as (evs & Hev & [(st & _ & _ & _ & Hm) | [(a & _ & Hm) | (a & Hp & Hm)]]).
  - exists []. rewrite Hm. cbn [fst snd]. split.
    + intros e He. split; [| intros []].
      intros [<- | Hin]; [discriminate |].
      unfold no_session in Hev. rewrite Forall_forall in Hev.
      apply Hev in Hin. congruence.
    + left. split; [reflexivity |]. split; [discriminate |]. discriminate.
  - exists []. rewrite Hm. cbn [fst snd]. split.
    + intros e He. split; [| intros []].
      intros [<- | Hin]; [discriminate |].
      unfold no_session in Hev. rewrite Forall_forall in Hev.
      apply Hev in Hin. congruence.
    + left. split; [reflexivity |]. split; [discriminate |].
      intros rc H; inversion H; reflexivity.
  - destruct (run_session_cases a) as (tail & r & Hrun & Hst & Hcases).
    exists tail. rewrite Hm, Hrun. cbn [fst snd]. split.
    + intros e He. split.
      * intros [<- | Hin]; [discriminate |].
        apply in_session_event in Hin; [| assumption | assumption].
        apply in_session_event in Hin; assumption.
      * intros Hin. right. apply in_or_app. right. apply in_or_app. right.
        assumption.
    + right. exists evs, a, (create_call a (snd (fstat_input_len E))).
      split; [assumption |]. split; [reflexivity |]. cbv zeta.
      destruct Hcases as [(H1 & -> & ->) | [(H1 & H2 & -> & ->) | (H1 & H2 & -> & ->)]];
        auto 10.
Qed.

Ltac in_tail :=
  repeat match goal with
         | H : In _ (_ :: _) |- _ => destruct H as [H | H]; [inversion H; subst |]
         | H : In _ [] |- _ => destruct H
         end.

(** The events of a run, in order: a part with no session call, then
    the session calls of [main] as far as they got. *)
Lemma main_events_shape opts :
  exists pre tail,
    fst (main E opts) = pre ++ tail /\ no_session pre /\
    (tail = [] \/
     exists c e1 e2 e3,
       (e1 <> 0 /\
        tail = [ev_ubigen_create c e1; ev_stderr (cannot_create_handler e1)]) \/
       (e2 <> 0 /\
        tail = [ev_ubigen_create c 0; ev_ubigen_write_complete e2;
                ev_stderr error_converting_input]) \/
       tail = [ev_ubigen_create c 0; ev_ubigen_write_complete 0;
               ev_ubigen_destroy e3]).
Proof.
  destruct (main_cases opts)
    as (evs & Hev & [(st & _ & _ & _ & Hm) | [(a & _ & Hm) | (a & Hp & Hm)]]).
  - exists (ev_ubigen_init :: evs), []. rewrite Hm, app_nil_r. cbn [fst].
    split; [reflexivity |]. split; [| left; reflexivity].
    constructor; [reflexivity | assumption].
  - exists (ev_ubigen_init :: evs), []. rewrite Hm, app_nil_r. cbn [fst].
    split; [reflexivity |]. split; [| left; reflexivity].
    constructor; [reflexivity | assumption].
  - destruct (run_session_cases a) as (tail & r & Hrun & Hst & Hcases).
    exists (ev_ubigen_init :: evs ++ fst (fstat_input_len E)), tail.
    rewrite Hm, Hrun. cbn [fst].
    split; [cbn [app]; rewrite app_assoc; reflexivity |].
    split.
    + constructor; [reflexivity |]. apply Forall_app. split; assumption.
    + right. cbv zeta in Hcases.
      exists (create_call a (snd (fstat_input_len E))),
             (ubigen_create_err E (create_call a (snd (fstat_input_len E)))),
             (ubigen_write_complete_err E), (ubigen_destroy_err E).
      destruct Hcases as [(H1 & _ & ->) | [(_ & H2 & _ & ->) | (_ & _ & _ & ->)]].
      * left. split; [assumption | reflexivity].
      * right; left. split; [assumption | reflexivity].
      * right; right. reflexivity.
Qed.

(** A session call found in a run lies in the part after the one that
    has no session call. *)
Lemma split_after_prefix (x : event) (tail l2 : list event) :
  session_event x = true ->
  forall pre l1,
    no_session pre ->
    pre ++ tail = l1 ++ x :: l2 ->
    exists t1, l1 = pre ++ t1 /\ tail = t1 ++ x :: l2.
Proof.
  intros Hx. induction pre as [| p pre IH]; intros l1 Hpre Heq.
  - exists l1. split; [reflexivity | exact Heq].
  - inversion Hpre as [| ? ? Hp Hpre']; subst.
    destruct l1 as [| y l1]; cbn [app] in Heq; inversion Heq; subst.
    + congruence.
    + destruct (IH l1 Hpre' H1) as (t1 & -> & Ht).
      exists t1. split; [reflexivity | exact Ht].
Qed.

(** X9: the calls into libubigen come in order: every call of
    [ubigen_write_complete] is preceded in the run by a call of
    [ubigen_create] that returned 0, and every call of [ubigen_destroy] by
    a call of [ubigen_write_complete] that returned 0. *)
Theorem session_calls_are_sequenced opts :
  (forall l1 e l2,
      fst (main E opts) = l1 ++ ev_ubigen_write_complete e :: l2 ->
      exists c, In (ev_ubigen_create c 0) l1) /\
  (forall l1 d l2,
      fst (main E opts) = l1 ++ ev_ubigen_destroy d :: l2 ->
      In (ev_ubigen_write_complete 0) l1).
Proof.
  destruct (main_events_shape opts) as (pre & tail & -> & Hpre & Hcases).
  split.
  - intros l1 e l2 Heq.
    apply split_after_prefix in Heq; [| reflexivity | assumption].
    destruct Heq as (t1 & -> & Ht).
    destruct Hcases as [-> | (c & e1 & e2 & e3 & [(_ & ->) | [(_ & ->) | ->]])].
    + destruct t1; discriminate.
    + destruct t1 as [| ? [| ? [| ? ?]]]; discriminate.
    + destruct t1 as [| ? [| ? [| ? [| ? ?]]]]; try discriminate.
      inversion Ht; subst. exists c. apply in_or_app. right. left. reflexivity.
    + destruct t1 as [| ? [| ? [| ? [| ? ?]]]]; try discriminate.
      inversion Ht; subst. exists c. apply in_or_app. right. left. reflexivity.
  - intros l1 d l2 Heq.
    apply split_after_prefix in Heq; [| reflexivity | assumption].
    destruct Heq as (t1 & -> & Ht).
    destruct Hcases as [-> | (c & e1 & e2 & e3 & [(_ & ->) | [(_ & ->) | ->]])].
    + destruct t1; discriminate.
    + destruct t1 as [| ? [| ? [| ? ?]]]; discriminate.
    + destruct t1 as [| ? [| ? [| ? [| ? ?]]]]; discriminate.
    + destruct t1 as [| ? [| ? [| ? [| ? ?]]]]; try discriminate.
      inversion Ht; subst. apply in_or_app. right. right. left. reflexivity.
Qed.

(** X10: [main] returns 0 exactly when [ubigen_destroy] was called and
    returned 0, at the end of a session that was created and written. *)
Theorem main_returns_zero_iff_session_destroyed opts :
  snd (main E opts) = returns 0 <->
  In (ev_ubigen_destroy 0) (fst (main E opts)).
Proof.
  destruct (main_session_events opts) as (tail & Hin & Hcases).
  rewrite (Hin (ev_ubigen_destroy 0) eq_refl).
  destruct Hcases as [(-> & Hnz & _) | (evs & a & c & _ & _ & Hc)].
  - split; [contradiction | intros []].
  - cbv zeta in Hc.
    destruct Hc as [(_ & -> & ->) | [(_ & _ & -> & ->) | (_ & _ & -> & ->)]].
    + split; [discriminate | intros H; in_tail].
    + split; [discriminate | intros H; in_tail].
    + split.
      * intros H; inversion H as [H0]. rewrite H0. cbn; auto.
      * intros H; in_tail. congruence.
Qed.

(** X11: when [ubigen_create] or [ubigen_write_complete] returns an
    error, [main] returns -1 and calls nothing further on the session:
    in particular a session whose write failed is not destroyed. *)
Theorem failed_session_is_not_destroyed opts err :
  (exists c, In (ev_ubigen_create c err) (fst (main E opts))) \/
  In (ev_ubigen_write_complete err) (fst (main E opts)) ->
  err <> 0 ->
  snd (main E opts) = returns (-1) /\
  forall d, ~ In (ev_ubigen_destroy d) (fst (main E opts)).
Proof.
  destruct (main_session_events opts) as (tail & Hin & Hcases).
  intros Hev Herr.
  assert (Ht : (exists c, In (ev_ubigen_create c err) tail) \/
               In (ev_ubigen_write_complete err) tail).
  { destruct Hev as [[c Hc] | Hw].
    - left. exists c. apply Hin; [reflexivity | assumption].
    - right. apply Hin; [reflexivity | assumption]. }
  destruct Hcases as [(-> & _) | (evs & a & c & _ & _ & Hc)].
  - destruct Ht as [[c []] | []].
  - cbv zeta in Hc.
    destruct Hc as [(_ & -> & ->) | [(_ & _ & -> & ->) | (_ & _ & _ & ->)]].
    + split; [reflexivity |]. intros d Hd. apply Hin in Hd; [| reflexivity]. in_tail.
    + split; [reflexivity |]. intros d Hd. apply Hin in Hd; [| reflexivity]. in_tail.
    + exfalso. destruct Ht as [[c' Ht] | Ht]; in_tail; congruence.
Qed.

Lemma help_or_version_supplied opts :
  ~ no_help_or_version opts -> supplied "h" opts \/ supplied "V" opts.
Proof.
  induction opts as [| [k o] opts IH]; intros Hn.
  - exfalso. apply Hn. constructor.
  - destruct (help_or_version k) eqn:Hk.
    + unfold help_or_version in Hk. apply orb_prop in Hk as [Hk | Hk];
        apply Ascii.eqb_eq in Hk; subst; [left | right];
        exists o; left; reflexivity.
    + destruct IH as [[o' H] | [o' H]].
      * intros Hf. apply Hn. constructor; assumption.
      * left. exists o'. right; assumption.
      * right. exists o'. right; assumption.
Qed.

(** X12: how a run can end: the process exits only from [-h] or [-V],
    with [EXIT_SUCCESS] and without a session; otherwise [main] returns
    -1 or what [ubigen_destroy] returned. *)
Theorem main_endings opts :
  match snd (main E opts) with
  | exits status =>
      status = EXIT_SUCCESS /\
      (supplied "h" opts \/ supplied "V" opts) /\
      no_session (fst (main E opts))
  | returns rc =>
      rc = -1 \/
      (rc = ubigen_destroy_err E /\ In (ev_ubigen_destroy rc) (fst (main E opts)))
  end.
Proof.
  destruct (main_cases opts)
    as (evs & Hev & [(st & _ & _ & Hn & Hm) | [(a & _ & Hm) | (a & Hp & Hm)]]).
  - rewrite Hm. cbn [fst snd]. split; [reflexivity |].
    split; [apply help_or_version_supplied, Hn |].
    constructor; [reflexivity | assumption].
  - rewrite Hm. cbn. auto.
  - rewrite Hm. cbn [fst snd].
    destruct (run_session_cases a) as (tail & r & Hrun & _ & Hcases).
    rewrite Hrun. cbn [fst snd]. cbv zeta in Hcases.
    destruct Hcases as [(_ & -> & _) | [(_ & _ & -> & _) | (_ & _ & -> & ->)]];
      [left; reflexivity | left; reflexivity |].
    right. split; [reflexivity |].
    right. apply in_or_app. right. apply in_or_app. right. cbn; auto.
Qed.

(** X8: every call of [ubigen_create] is made with checked arguments:
    the volume ID is the number read from an [-I] option and the cast to
    [uint32_t] has not changed it, the input stream is a file opened for
    reading that an [-i] option names, the output stream is not [NULL],
    the numbers are non-negative [int]s, the alignment is 1 and the
    compatibility flag 0. *)
Theorem create_arguments_are_checked opts c err :
  In (ev_ubigen_create c err) (fst (main E opts)) ->
  (exists optarg,
      In ("I"%char, optarg) opts /\ num_value optarg = Some (c_vol_id c)) /\
  (exists path,
      In ("i"%char, path) opts /\ fopen_ok E path "rb" = true /\
      c_fp_in c = Some (opened path "rb")) /\
  c_fp_out c <> None /\
  0 <= c_vol_id c < 2 ^ 31 /\ 0 <= c_eb_size c < 2 ^ 31 /\
  0 <= c_ec c < 2 ^ 31 /\ 0 <= c_version c < 2 ^ 31 /\
  0 <= c_vid_hdr_offset c < 2 ^ 31 /\
  c_alignment c = 1 /\ c_compat_flag c = 0.
Proof.
  intros Hin. apply main_create_event in Hin as (evs & a & Hp & ->).
  pose proof (parse_opt_requires_mandatory E _ _ _ Hp) as (Hi & HI & Hb & _).
  pose proof (parse_opt_success E _ _ _ Hp) as (_ & _ & Hal & _).
  pose proof (parse_opt_ok_field E _ _ _ Hp) as (a1 & Hloop & Hf & Hout & _ & _ & Hpeb & _).
  pose proof (option_loop_break _ _ _ _ _ Hloop) as (_ & _ & _ & _ & Hframe).
  assert (Hlast : forall f, supplied (field_key f) opts ->
            exists optarg, In (field_key f, optarg) opts /\
                           option_value E f optarg = Some (get_field f a)).
  { intros f Hs. destruct (supplied_last _ _ Hs) as (pre & optarg & post & Heq & Hns).
    exists optarg. split.
    - rewrite Heq. apply in_or_app. right. left. reflexivity.
    - eapply parse_opt_last_field; [rewrite <- Heq; exact Hp | exact Hns]. }
  assert (Hnum : forall f, In f [F_ec; F_ubi_ver; F_vid_hdr_offs] ->
            exists z, get_field f a = V_int z /\ 0 <= z < 2 ^ 31).
  { intros f Hfin.
    destruct (supplied_dec (field_key f) opts) as [Hs | Hn].
    - destruct (Hlast f Hs) as (optarg & _ & Hv).
      cbn in Hfin. destruct Hfin as [<- | [<- | [<- | []]]]; cbn in Hv |- *;
        destruct (num_value optarg) as [n |] eqn:Hn; inversion Hv;
        exists n; (split; [congruence | eapply num_value_range; eassumption]).
    - specialize (Hframe f Hn).
      cbn in Hfin. destruct Hfin as [<- | [<- | [<- | []]]];
        match goal with
        | |- context [get_field ?f0 a] =>
            rewrite (Hf f0 ltac:(discriminate)), Hframe
        end; cbn;
        eexists; (split; [reflexivity | lia]). }
  destruct (Hlast F_id HI) as (oI & HinI & HvI). cbn in HvI.
  destruct (num_value oI) as [n |] eqn:HnI; inversion HvI as [Hid].
  pose proof (num_value_range _ _ HnI) as HrI.
  destruct (Hlast F_fp_in Hi) as (oi & Hini & Hvi). cbn in Hvi.
  destruct (fopen_ok E oi "rb") eqn:Hfo; inversion Hvi as [Hfi].
  destruct (Hlast F_peb_size Hb) as (ob & _ & Hvb). cbn in Hvb.
  destruct (size_value E ob) as [sb |] eqn:Hsb; inversion Hvb as [Hpb].
  pose proof (size_value_range E _ _ Hsb) as Hrb. unfold int_range in Hrb.
  specialize (Hf F_peb_size ltac:(discriminate)). cbn in Hf. inversion Hf as [Hpa].
  destruct (Hnum F_ec ltac:(cbn; auto)) as (zec & Hzec & Rec). cbn in Hzec.
  destruct (Hnum F_ubi_ver ltac:(cbn; auto)) as (zv & Hzv & Rv). cbn in Hzv.
  destruct (Hnum F_vid_hdr_offs ltac:(cbn; auto)) as (zo & Hzo & Ro). cbn in Hzo.
  inversion Hzec; inversion Hzv; inversion Hzo.
  assert (Hcast : to_uint32 (id a) = id a).
  { unfold to_uint32. apply Z.mod_small. lia. }
  cbn [create_call c_vol_id c_fp_in c_fp_out c_eb_size c_ec c_version
       c_vid_hdr_offset c_alignment c_compat_flag].
  rewrite Hcast.
  split; [exists oI; split; [assumption | congruence] |].
  split; [exists oi; split; [assumption | split; [assumption | congruence]] |].
  split; [rewrite Hout; destruct (fp_out a1); discriminate |].
  repeat split; try lia; try assumption.
Qed.


(** X14: a run in which everything succeeds is quiet: when [parse_opt],
    [fstat], [ubigen_create] and [ubigen_write_complete] succeed, the run
    opens the files the options name, in order, makes the three session
    calls once each, prints nothing on [stderr], and returns what
    [ubigen_destroy] returned. *)
Theorem successful_run_is_quiet opts evs a sz :
  parse_opt E args opts = (evs, returns (0, a)) ->
  fstat_st_size E = Some sz ->
  ubigen_create_err E (create_call a sz) = 0 ->
  ubigen_write_complete_err E = 0 ->
  main E opts
  = (ev_ubigen_init :: fopen_events opts
       ++ [ev_fstat true; ev_ubigen_create (create_call a sz) 0;
           ev_ubigen_write_complete 0;
           ev_ubigen_destroy (ubigen_destroy_err E)],
     returns (ubigen_destroy_err E)) /\
  forall m, ~ In (ev_stderr m) (fst (main E opts)).
Proof.
  intros Hp Hst Hc Hw.
  assert (Hm : main E opts
               = (ev_ubigen_init :: fopen_events opts
                    ++ [ev_fstat true; ev_ubigen_create (create_call a sz) 0;
                        ev_ubigen_write_complete 0;
                        ev_ubigen_destroy (ubigen_destroy_err E)],
                  returns (ubigen_destroy_err E))).
  { rewrite (main_parse_ok E _ _ _ Hp).
    pose proof (parse_opt_ok_inv E _ _ _ _ Hp) as (a1 & Hloop & _).
    apply option_loop_break in Hloop as (_ & -> & _).
    unfold run_session, fstat_input_len. rewrite Hst, Hc, Hw. reflexivity. }
  split; [exact Hm |].
  rewrite Hm. cbn [fst]. intros m [H | H]; [discriminate |].
  apply in_app_or in H as [H | H].
  - unfold fopen_events in H. apply in_flat_map in H as ([k o] & _ & H).
    cbn [fst snd] in H. destruct (key_field k) as [[] |]; cbn in H;
      intuition discriminate.
  - cbn in H. intuition discriminate.
Qed.

End Main.

(* ================================================================= *)
(** ** The sample runs *)

(** [ubigen -i in.bin -o out.img -b 64KiB -I 5 -m 2048] succeeds, and
    has the four mandatory options. *)
Lemma mandatory_options_are_required_witness :
  mandatory_supplied Samples.opts_plain.
Proof.
  eapply (mandatory_options_are_required Samples.env_ok Samples.opts_plain).
  vm_compute. reflexivity.
Defined.

Lemma accepted_options_succeed_iff_mandatory_supplied_witness :
  exists evs rc a,
    Ubigen.parse_opt Samples.env_ok Ubigen.args Runs.opts_minimal
    = (evs, Ubigen.returns (rc, a)) /\
    (rc = 0 \/ rc = -1) /\
    (rc = 0 <-> mandatory_supplied Runs.opts_minimal) /\
    (rc = 0 -> evs = fopen_events Runs.opts_minimal).
Proof.
  apply (accepted_options_succeed_iff_mandatory_supplied
           Samples.env_ok Runs.opts_minimal).
  repeat constructor.
Defined.

(** [ubigen -i in.bin -t bogus -o out.img -b 64KiB]: the input file is
    opened, the volume type is turned down, the output file is not
    opened. *)
Lemma rejected_option_is_reported_witness :
  Ubigen.main Samples.env_ok Runs.opts_bad_type
  = ([Ubigen.ev_ubigen_init; Ubigen.ev_fopen "in.bin" "rb" true;
      Ubigen.ev_stderr (Ubigen.bad_volume_type "bogus")],
     Ubigen.returns (-1)) /\
  snd (Ubigen.main Samples.env_ok Runs.opts_bad_type) = Ubigen.returns (-1) /\
  no_session (fst (Ubigen.main Samples.env_ok Runs.opts_bad_type)).
Proof.
  split; [vm_compute; reflexivity |].
  apply (rejected_option_is_reported Samples.env_ok
           [("i"%char, "in.bin"%string)] "t"%char "bogus"%string
           [("o"%char, "out.img"%string); ("b"%char, "64KiB"%string)]).
  - repeat constructor.
  - vm_compute; reflexivity.
Defined.

Lemma options_after_a_stop_are_ignored_witness :
  Ubigen.main Samples.env_ok Runs.opts_bad_type
  = Ubigen.main Samples.env_ok
      [("i"%char, "in.bin"%string); ("t"%char, "bogus"%string)].
Proof.
  apply (options_after_a_stop_are_ignored Samples.env_ok
           [("i"%char, "in.bin"%string)] "t"%char "bogus"%string
           [("o"%char, "out.img"%string); ("b"%char, "64KiB"%string)]).
  vm_compute; reflexivity.
Defined.

(** [ubigen -o out.img -h -b 0]: the output file is opened for writing,
    then the help text is printed. *)
Lemma help_ends_the_run_after_earlier_options_witness :
  Ubigen.main Samples.env_ok Runs.opts_help_after_outfile
  = ([Ubigen.ev_ubigen_init; Ubigen.ev_fopen "out.img" "wb" true;
      Ubigen.ev_stderr Ubigen.help_text],
     Ubigen.exits Ubigen.EXIT_SUCCESS).
Proof.
  apply (help_ends_the_run_after_earlier_options Samples.env_ok
           [("o"%char, "out.img"%string)] "h"%char ""%string
           [("b"%char, "0"%string)]).
  - repeat constructor.
  - reflexivity.
Defined.

(** [ubigen -i in.bin -t static -b 64KiB -I 5 -m 2048 -t dynamic]: the
    volume is dynamic. *)
Lemma last_occurrence_decides_witness :
  exists evs a,
    Ubigen.parse_opt Samples.env_ok Ubigen.args Runs.opts_type_twice
    = (evs, Ubigen.returns (0, a)) /\
    Some (V_type Ubigen.UBI_VID_DYNAMIC) = Some (get_field F_type a).
Proof.
  do 2 eexists. split; [vm_compute; reflexivity |].
  apply (last_occurrence_decides Samples.env_ok F_type
           [("i"%char, "in.bin"%string); ("t"%char, "static"%string);
            ("b"%char, "64KiB"%string); ("I"%char, "5"%string);
            ("m"%char, "2048"%string)]
           "dynamic"%string []
           [Ubigen.ev_fopen "in.bin" "rb" true]).
  - vm_compute; reflexivity.
  - intros [o []].
Defined.

(** [ubigen -i in.bin -b 64KiB -I 5 -m 2048]: output to [stdout], a
    dynamic volume, erase counter 0. *)
Lemma unsupplied_options_have_defaults_witness :
  exists evs a,
    Ubigen.parse_opt Samples.env_ok Ubigen.args Runs.opts_minimal
    = (evs, Ubigen.returns (0, a)) /\
    Ubigen.fp_out a = Some Ubigen.stdout /\
    Ubigen.type a = Ubigen.UBI_VID_DYNAMIC /\
    Ubigen.ec a = 0.
Proof.
  do 2 eexists. split; [vm_compute; reflexivity |].
  match goal with
  | |- context [Ubigen.fp_out ?a] =>
      destruct (unsupplied_options_have_defaults Samples.env_ok Runs.opts_minimal
                  [Ubigen.ev_fopen "in.bin" "rb" true] a)
        as (Ho & Ht & He & _)
  end.
  - vm_compute; reflexivity.
  - assert (Hn : forall k, In k ["o"; "t"; "e"]%char ->
                           ~ supplied k Runs.opts_minimal).
    { intros k Hk [o Ho']. cbn in Hk, Ho'.
      intuition (subst; discriminate). }
    split; [apply Ho, Hn; cbn; auto |].
    split; [apply Ht, Hn; cbn; auto | apply He, Hn; cbn; auto].
Defined.

(** The call of [ubigen_create] in the run
    [ubigen -i in.bin -o out.img -b 64KiB -I 5 -m 2048]. *)
Lemma create_arguments_are_checked_witness :
  exists c err,
    In (Ubigen.ev_ubigen_create c err)
       (fst (Ubigen.main Samples.env_ok Samples.opts_plain)) /\
    Ubigen.c_vol_id c = 5 /\ Ubigen.c_eb_size c = 65536 /\
    0 <= Ubigen.c_vol_id c < 2 ^ 31 /\ 0 <= Ubigen.c_eb_size c < 2 ^ 31.
Proof.
  do 2 eexists.
  assert (Hin : In (Ubigen.ev_ubigen_create
                      (Ubigen.create_call
                         (Ubigen.mk_args (Some (Ubigen.opened "in.bin" "rb"))
                                         (Some (Ubigen.opened "out.img" "wb"))
                                         65536 5 2048 Ubigen.UBI_VID_DYNAMIC
                                         2048 1 0 0 0) 150000) 0)
                   (fst (Ubigen.main Samples.env_ok Samples.opts_plain)))
    by (vm_compute; do 4 right; left; reflexivity).
  split; [exact Hin |]. split; [reflexivity |]. split; [reflexivity |].
  destruct (create_arguments_are_checked Samples.env_ok Samples.opts_plain _ _ Hin)
    as (_ & _ & _ & Hid & Heb & _).
  split; [exact Hid | exact Heb].
Defined.

(** In the successful run the destruction is the seventh event, and the
    write is among the six before it. *)
Lemma session_calls_are_sequenced_witness :
  In (Ubigen.ev_ubigen_write_complete 0)
     (firstn 6 (fst (Ubigen.main Samples.env_ok Samples.opts_plain))).
Proof.
  apply (proj2 (session_calls_are_sequenced Samples.env_ok Samples.opts_plain)
               (firstn 6 (fst (Ubigen.main Samples.env_ok Samples.opts_plain)))
               0 []).
  vm_compute. reflexivity.
Defined.

Lemma main_returns_zero_iff_session_destroyed_witness :
  snd (Ubigen.main Samples.env_ok Samples.opts_plain) = Ubigen.returns 0.
Proof.
  apply (proj2 (main_returns_zero_iff_session_destroyed
                  Samples.env_ok Samples.opts_plain)).
  vm_compute. do 6 right. left. reflexivity.
Defined.

(** The same command line when [ubigen_create] returns -22. *)
Lemma failed_session_is_not_destroyed_witness :
  snd (Ubigen.main Runs.env_create_fails Samples.opts_plain) = Ubigen.returns (-1) /\
  Forall (fun e => match e with
                   | Ubigen.ev_ubigen_destroy _ => False
                   | _ => True
                   end)
         (fst (Ubigen.main Runs.env_create_fails Samples.opts_plain)).
Proof.
  destruct (failed_session_is_not_destroyed
              Runs.env_create_fails Samples.opts_plain (-22))
    as [Hret Hnd].
  - left. eexists. vm_compute. do 4 right. left. reflexivity.
  - discriminate.
  - split; [exact Hret |]. apply Forall_forall.
    intros [] Hin; try exact I. exact (Hnd _ Hin).
Defined.


(** The run [ubigen -i in.bin -o out.img -b 64KiB -I 5 -m 2048] when
    everything succeeds. *)
Lemma successful_run_is_quiet_witness :
  Ubigen.main Samples.env_ok Samples.opts_plain
  = ([Ubigen.ev_ubigen_init; Ubigen.ev_fopen "in.bin" "rb" true;
      Ubigen.ev_fopen "out.img" "wb" true; Ubigen.ev_fstat true;
      Ubigen.ev_ubigen_create
        (Ubigen.create_call
           (Ubigen.mk_args (Some (Ubigen.opened "in.bin" "rb"))
                           (Some (Ubigen.opened "out.img" "wb"))
                           65536 5 2048 Ubigen.UBI_VID_DYNAMIC 2048 1 0 0 0)
           150000) 0;
      Ubigen.ev_ubigen_write_complete 0; Ubigen.ev_ubigen_destroy 0],
     Ubigen.returns 0).
Proof.
  apply (successful_run_is_quiet Samples.env_ok Samples.opts_plain
           [Ubigen.ev_fopen "in.bin" "rb" true;
            Ubigen.ev_fopen "out.img" "wb" true]
           (Ubigen.mk_args (Some (Ubigen.opened "in.bin" "rb"))
                           (Some (Ubigen.opened "out.img" "wb"))
                           65536 5 2048 Ubigen.UBI_VID_DYNAMIC 2048 1 0 0 0)
           150000).
  - vm_compute; reflexivity.
  - reflexivity.
  - reflexivity.
  - reflexivity.
Defined.
